(** * NetBox MCP server: cable tracer and device listing

    A shallow embedding of [src/tools/cables.py] and of [get_devices] from
    [src/tools/devices.py], with the properties of the tracer's
    specification stated and settled against it.

    The inventory (the NetBox instance behind [pynetbox]) is an object
    graph: records refer to cables, cables to the records terminated on
    them, front ports to their rear port and rear ports to their front
    ports.  The graph has cycles, so records are named by a reference and
    their attributes are read through the inventory. *)

From stdpp Require Import base option list strings gmap.
From Stdlib Require Import ZArith Lia.

#[local] Set Warnings "-clear-no-such-hyp".

Open Scope string_scope.
Open Scope list_scope.
Open Scope Z_scope.

(** ** Data model *)

(** A record of the API, named by its endpoint and its id. *)
Record TermRef := mkRef { endpoint : string; ident : Z }.

#[global] Instance TermRef_eq_dec : EqDecision TermRef.
Proof. solve_decision. Defined.

(** The attributes the tracer reads from a record.  An attribute that the
    record does not have ([hasattr] is false) and one that is null are both
    falsy to the source; [device] and [name] are mandatory strings on every
    record type of the API that carries them, so [None] stands for a record
    without the attribute (a circuit termination has neither). *)
Record Termination := mkTermination {
  device : option string;        (* termination.device.name *)
  name : option string;          (* termination.name *)
  cable : option Z;              (* termination.cable.id *)
  rear_port : option TermRef;    (* front ports: the paired rear port *)
  front_ports : list TermRef     (* rear ports: the paired front ports *)
}.

Record Cable := mkCable {
  a_terminations : list TermRef;
  b_terminations : list TermRef
}.

(** What [a != b] answers for two records is decided by the client
    library, which is not part of the sources.  Two behaviours are known.
    [pynetbox] up to 7.5 compares records by endpoint name and id, so a
    record differs from every record but itself.  [pynetbox] 7.8 finds the
    records of a cable's termination lists different from whatever record
    they are compared with, the same termination included. *)
Inductive RecordComparison :=
| ByEndpointAndId
| NeverEqual.

(** The inventory as the client library presents it.  Every name of
    [devices] stands for one device: a name that several devices share, for
    which [dcim.devices.get] raises instead of answering, is not part of
    the model. *)
Record Inventory := mkInventory {
  devices : list string;         (* names that dcim.devices.get resolves *)
  interfaces : list TermRef;     (* the records of dcim.interfaces, in order *)
  term : TermRef -> Termination; (* attribute access on a record *)
  cables : Z -> Cable;           (* the cable with a given id *)
  comparison : RecordComparison  (* how the client library compares records *)
}.

(** ** Cable graph accessors *)

Section Accessors.
Context (nb : Inventory).

(** [a != b] on two records. *)
Definition record_ne (a b : TermRef) : bool :=
  match comparison nb with
  | ByEndpointAndId => bool_decide (a <> b)
  | NeverEqual => true
  end.

(** The loop of [_get_connected_terminations]: append every element for
    which [term != termination] holds. *)
Fixpoint collect_other (termination : TermRef) (todo acc : list TermRef)
  : list TermRef :=
  match todo with
  | [] => acc
  | t :: rest =>
      if record_ne t termination
      then collect_other termination rest (acc ++ [t])
      else collect_other termination rest acc
  end.

Definition _get_connected_terminations (termination : TermRef) : list TermRef :=
  match cable (term nb termination) with
  | None => []
  | Some c =>
      let cab := cables nb c in
      match a_terminations cab with
      | [] => []
      | _ :: _ =>
          collect_other termination
            (a_terminations cab ++ b_terminations cab) []
      end
  end.

(** The body of the loop of [_get_next_terminations] for one connected
    termination. *)
Definition next_step (acc : list TermRef) (t : TermRef) : list TermRef :=
  let acc := acc ++ [t] in
  match rear_port (term nb t) with
  | Some r => acc ++ [r]
  | None =>
      match front_ports (term nb t) with
      | [] => acc
      | fps => acc ++ fps
      end
  end.

Definition _get_next_terminations (termination : TermRef) : list TermRef :=
  match cable (term nb termination) with
  | None => []
  | Some _ =>
      fold_left next_step (_get_connected_terminations termination) []
  end.

(** The ports inside a patch panel that a termination is paired with. *)
Definition paired_ports (t : TermRef) : list TermRef :=
  match rear_port (term nb t) with
  | Some r => [r]
  | None => front_ports (term nb t)
  end.

(** The cable's terminations as the specification words them: every
    member of both sides, minus the termination itself. *)
Definition others_on_cable (termination : TermRef) : list TermRef :=
  match cable (term nb termination) with
  | None => []
  | Some c =>
      filter (fun t => t <> termination)
        (a_terminations (cables nb c) ++ b_terminations (cables nb c))
  end.

End Accessors.

(** ** Exceptions

    The tools wrap their body in [try ... except Exception], which turns
    any exception into a top-level error object.  The two that the
    tracer's own statements raise are a failed dictionary lookup and an
    attribute read on a value that does not have it.  What the client
    library raises by itself, as [get] does for a name that several
    devices share, is outside the model. *)

Inductive Exn :=
| KeyError (key : string)
| AttributeError (attr : string).

Definition Exc (A : Type) : Type := Exn + A.

Definition ret {A} (a : A) : Exc A := inr a.
Definition raise {A} (e : Exn) : Exc A := inl e.
Definition bind {A B} (m : Exc A) (k : A -> Exc B) : Exc B :=
  match m with
  | inl e => inl e
  | inr a => k a
  end.

Notation "'do' x <- m ; k" := (bind m (fun x => k))
  (at level 10, x pattern, m at level 100, k at level 200).

(** A [for] loop whose body may raise. *)
Fixpoint for_each {A S} (body : S -> A -> Exc S) (l : list A) (s : S) : Exc S :=
  match l with
  | [] => ret s
  | x :: rest => do s' <- body s x; for_each body rest s'
  end.

(** [d[k]] on a Python dictionary. *)
Definition getitem {V} (d : gmap string V) (k : string) : Exc V :=
  match d !! k with
  | Some v => ret v
  | None => raise (KeyError k)
  end.

(** [k in d]. *)
Definition contains {V} (d : gmap string V) (k : string) : bool :=
  bool_decide (is_Some (d !! k)).

(** Truthiness of a Python string. *)
Definition truthy (s : string) : bool := bool_decide (s <> "").

(** ** Bidirectional path tracer *)

Record PathHop := mkHop {
  hop_device : string;
  hop_interface : string;
  hop_cable_id : Z;
  hop_next_device : string;
  hop_next_interface : option string
}.

#[global] Instance PathHop_eq_dec : EqDecision PathHop.
Proof. solve_decision. Defined.

Abbreviation Paths := (gmap string (list PathHop)).

(** The dictionaries and the list that [_expand_frontier] updates. *)
Record Frontier := mkFrontier {
  visited : Paths;
  path_to_origin : Paths;
  new_devices : list string
}.

Inductive ErrorKind :=
| ConnectionNotAvailable
| SourceNotFound (source_device : string)
| TargetNotFound (target_device : string)
| InterfaceNotFound (interface_name device_name : string)
| Failed (e : Exn).

Inductive TraceResult :=
| PathResult (path : list PathHop) (meeting_device : string)
    (source_hops target_hops : nat) (total_hops : Z)
| NoPathError (source_device target_device : string) (max_iterations : Z)
    (source_devices_explored target_devices_explored : nat)
| TraceError (error : ErrorKind).

Section PathTracer.
Context (nb : Inventory).

(** [nb.dcim.devices.get(name=device_name)] as a truth value, for a name
    that stands for one device or for none. *)
Definition devices_get (device_name : string) : bool :=
  bool_decide (device_name ∈ devices nb).

(** [nb.dcim.interfaces.filter(device=device_name, cabled=True)]. *)
Definition interfaces_filter (device_name : string) : list TermRef :=
  filter (fun i => device (term nb i) = Some device_name
                   /\ is_Some (cable (term nb i)))
    (interfaces nb).

(** Innermost loop body of [_expand_frontier]. *)
Definition discover (device_name : string) (interface : TermRef) (cable_id : Z)
    (st : Frontier) (next_term : TermRef) : Exc Frontier :=
  match device (term nb next_term) with
  | None => ret st
  | Some next_device =>
      if contains (visited st) next_device then ret st
      else
        do origin_path <- getitem (path_to_origin st) device_name;
        match name (term nb interface) with
        | None => raise (AttributeError "name")
        | Some interface_name =>
            let hop := mkHop device_name interface_name cable_id next_device
                         (name (term nb next_term)) in
            ret (mkFrontier (visited st)
                   (<[next_device := origin_path ++ [hop]]> (path_to_origin st))
                   (new_devices st ++ [next_device]))
        end
  end.

Definition expand_interface (device_name : string)
    (st : Frontier) (interface : TermRef) : Exc Frontier :=
  match cable (term nb interface) with
  | None => ret st
  | Some cable_id =>
      for_each
        (fun st t =>
           for_each (discover device_name interface cable_id)
             (_get_next_terminations nb t) st)
        (_get_connected_terminations nb interface) st
  end.

(** Outer loop body of [_expand_frontier]. *)
Definition expand_device (st : Frontier) (device_name : string) : Exc Frontier :=
  if contains (visited st) device_name then ret st
  else if negb (devices_get device_name) then ret st
  else
    do origin_path <- getitem (path_to_origin st) device_name;
    let st := mkFrontier (<[device_name := origin_path]> (visited st))
                (path_to_origin st) (new_devices st) in
    for_each (expand_interface device_name) (interfaces_filter device_name) st.

Definition _expand_frontier (devs : list string) (visited path_to_origin : Paths)
  : Exc Frontier :=
  for_each expand_device devs (mkFrontier visited path_to_origin []).

Fixpoint _find_intersection (source_visited : list string) (target_visited : Paths)
  : option string :=
  match source_visited with
  | [] => None
  | d :: rest =>
      if contains target_visited d then Some d
      else _find_intersection rest target_visited
  end.

Definition _build_complete_path (meeting_device : string)
    (source_visited target_visited : Paths) : Exc TraceResult :=
  do source_path <- getitem source_visited meeting_device;
  do target_path <- getitem target_visited meeting_device;
  let target_path_reversed := rev target_path in
  let complete_path := source_path ++ tail target_path_reversed in
  ret (PathResult complete_path meeting_device
         (length source_path) (length target_path)
         (Z.of_nat (length source_path) + Z.of_nat (length target_path) - 1)).

(** [if intersection:] holds for a device name that is not empty. *)
Definition found (intersection : option string) : option string :=
  match intersection with
  | Some d => if truthy d then Some d else None
  | None => None
  end.

(** The [for iteration in range(max_iterations)] loop, [rounds] being the
    number of iterations left; falling out of the loop, by exhaustion or
    by [break], reaches the final [return]. *)
Fixpoint search (source_device target_device : string) (max_iterations : Z)
    (rounds : nat) (source_frontier target_frontier : list string)
    (source_visited target_visited source_paths target_paths : Paths)
  : Exc TraceResult :=
  match rounds with
  | O => ret (NoPathError source_device target_device max_iterations
                (size source_visited) (size target_visited))
  | S rounds' =>
      do src <- _expand_frontier source_frontier source_visited source_paths;
      match found (_find_intersection (new_devices src) target_visited) with
      | Some intersection =>
          _build_complete_path intersection (visited src) target_visited
      | None =>
          do tgt <- _expand_frontier target_frontier target_visited target_paths;
          match found (_find_intersection (new_devices tgt) (visited src)) with
          | Some intersection =>
              _build_complete_path intersection (visited src) (visited tgt)
          | None =>
              match new_devices src, new_devices tgt with
              | [], [] =>
                  ret (NoPathError source_device target_device max_iterations
                         (size (visited src)) (size (visited tgt)))
              | _, _ =>
                  search source_device target_device max_iterations rounds'
                    (new_devices src) (new_devices tgt)
                    (visited src) (visited tgt)
                    (path_to_origin src) (path_to_origin tgt)
              end
          end
      end
  end.

End PathTracer.

Definition trace_devices_connection (nb : option Inventory)
    (source_device target_device : string) (max_iterations : Z) : TraceResult :=
  match nb with
  | None => TraceError ConnectionNotAvailable
  | Some nb =>
      if negb (devices_get nb source_device)
      then TraceError (SourceNotFound source_device)
      else if negb (devices_get nb target_device)
      then TraceError (TargetNotFound target_device)
      else
        match search nb source_device target_device max_iterations
                (Z.to_nat max_iterations) [source_device] [target_device]
                ∅ ∅ {[source_device := []]} {[target_device := []]} with
        | inr result => result
        | inl e => TraceError (Failed e)
        end
  end.

(** ** Topology tree tracer *)

#[local] Set Warnings "-register-all".

(** A node dictionary.  The tree returned for an uncabled interface has no
    ["depth"] key. *)
Inductive TreeNode := mkNode {
  node_device : option string;
  node_interface : option string;
  node_type : string;
  node_cable_id : option Z;
  node_depth : option Z;
  children : list TreeNode
}.

Record Metadata := mkMetadata {
  start_device : string;
  start_interface : string;
  total_nodes : nat;
  total_cables : nat;
  meta_max_depth : Z
}.

Inductive TreeResult :=
| TreeError (error : ErrorKind)
| MessageResult (message : string) (tree : TreeNode)
| TreeFound (tree : TreeNode) (metadata : Metadata).

(** [if child_node: node["children"].append(child_node)]. *)
Definition append_node (nodes : list TreeNode) (child : option TreeNode)
  : list TreeNode :=
  match child with
  | Some n => nodes ++ [n]
  | None => nodes
  end.

Section TreeTracer.
Context (nb : Inventory).

(** The key kept in [visited_terminations]. *)
Definition term_id (termination : TermRef) : string :=
  String.append (default "unknown" (device (term nb termination)))
    (String.append "_" (default "unknown" (name (term nb termination)))).

Section Children.
(** The recursive call [_build_tree_node(t, visited_terminations,
    current_depth + 1, max_depth)], threading the set. *)
Context (build : TermRef -> gset string -> option TreeNode * gset string).

(** [for fp in front_ports: ...]. *)
Fixpoint build_each (ts : list TermRef)
    (st : list TreeNode * gset string) : list TreeNode * gset string :=
  match ts with
  | [] => st
  | t :: rest =>
      let '(node, seen) := build t (snd st) in
      build_each rest (append_node (fst st) node, seen)
  end.

(** Body of [for term in connected_terms: ...]. *)
Definition build_connected (st : list TreeNode * gset string) (t : TermRef)
  : list TreeNode * gset string :=
  let '(child_node, seen) := build t (snd st) in
  let nodes := append_node (fst st) child_node in
  match rear_port (term nb t) with
  | Some r =>
      let '(rear_node, seen) := build r seen in
      (append_node nodes rear_node, seen)
  | None =>
      match front_ports (term nb t) with
      | [] => (nodes, seen)
      | fps => build_each fps (nodes, seen)
      end
  end.
End Children.

(** [_build_tree_node] by recursion on the depth that is left,
    [max_depth - current_depth]: none left is the source's
    [current_depth >= max_depth]. *)
Fixpoint build_tree (left : nat) (termination : TermRef)
    (visited_terminations : gset string) (current_depth : Z)
  : option TreeNode * gset string :=
  match left with
  | O => (None, visited_terminations)
  | S left' =>
      if bool_decide (term_id termination ∈ visited_terminations)
      then (None, visited_terminations)
      else
        let seen := {[term_id termination]} ∪ visited_terminations in
        let '(nodes, seen) :=
          match cable (term nb termination) with
          | None => ([], seen)
          | Some _ =>
              fold_left
                (build_connected
                   (fun t s => build_tree left' t s (current_depth + 1)))
                (_get_connected_terminations nb termination) ([], seen)
          end in
        (Some (mkNode (device (term nb termination))
                 (name (term nb termination))
                 (match device (term nb termination) with
                  | Some _ => "interface"
                  | None => "port"
                  end)
                 (cable (term nb termination))
                 (Some current_depth)
                 nodes),
         seen)
  end.

Definition _build_tree_node (termination : TermRef)
    (visited_terminations : gset string) (current_depth max_depth : Z)
  : option TreeNode * gset string :=
  build_tree (Z.to_nat (max_depth - current_depth)) termination
    visited_terminations current_depth.

(** [nb.dcim.interfaces.get(device=device_name, name=interface_name)]. *)
Definition interfaces_get (device_name interface_name : string) : option TermRef :=
  List.find
    (fun i => bool_decide (device (term nb i) = Some device_name
                           /\ name (term nb i) = Some interface_name))
    (interfaces nb).

End TreeTracer.

Fixpoint count_nodes (node : TreeNode) : nat :=
  fold_left (fun count child => (count + count_nodes child)%nat)
    (children node) 1%nat.

Fixpoint count_cables (node : TreeNode) : gset Z :=
  fold_left (fun cables child => cables ∪ count_cables child)
    (children node)
    (match node_cable_id node with
     | Some c => if bool_decide (c <> 0) then {[c]} else ∅
     | None => ∅
     end).

Definition trace_from_interface (nb : option Inventory)
    (device_name interface_name : string) (max_depth : Z) : TreeResult :=
  match nb with
  | None => TreeError ConnectionNotAvailable
  | Some nb =>
      match interfaces_get nb device_name interface_name with
      | None => TreeError (InterfaceNotFound interface_name device_name)
      | Some interface =>
          match cable (term nb interface) with
          | None =>
              MessageResult
                (String.append "Interface '"
                   (String.append interface_name
                      (String.append "' on device '"
                         (String.append device_name
                            "' has no cable connected"))))
                (mkNode (Some device_name) (Some interface_name) "interface"
                   None None [])
          | Some _ =>
              match fst (_build_tree_node nb interface ∅ 0 max_depth) with
              | None => TreeError (Failed (AttributeError "get"))
              | Some tree =>
                  TreeFound tree
                    (mkMetadata device_name interface_name
                       (count_nodes tree) (size (count_cables tree)) max_depth)
              end
          end
      end
  end.

(** ** Device listing ([get_devices]) *)

Record Device := mkDevice {
  dev_id : Z;
  dev_name : option string;
  dev_slug : option string;                     (* getattr(device, 'slug', None) *)
  dev_type : option string;                     (* device.device_type.model *)
  dev_role : option string;                     (* device.role.name *)
  dev_rack : option string;                     (* device.rack.name *)
  dev_custom_fields : list (string * option string)
}.

Record DeviceInfo := mkDeviceInfo {
  info_id : Z;
  info_name : option string;
  info_slug : option string;
  info_type : option string;
  info_role : option string;
  info_rack : option string;
  info_custom_fields : option (list (string * string))   (* key absent: None *)
}.

(** The devices endpoint: the answer of [nb.dcim.devices.filter] to a
    dictionary of keyword filters. *)
Record DeviceApi := mkDeviceApi {
  devices_filter : gmap string string -> list Device
}.

Record DevicesMetadata := mkDevicesMetadata {
  total_count : nat;
  filters_applied : option string * option string * option string;
  meta_limit : option Z;
  truncated : bool
}.

Inductive DevicesResult :=
| DevicesError (message : string)
| DevicesFound (found_devices : list DeviceInfo) (metadata : DevicesMetadata).

(** Truthiness of an optional string and of an optional integer. *)
Definition truthy_str (s : option string) : bool :=
  match s with
  | Some s => truthy s
  | None => false
  end.

Definition truthy_int (n : option Z) : bool :=
  match n with
  | Some n => bool_decide (n <> 0)
  | None => false
  end.

(** [l[:n]]. *)
Definition slice_to {A} (l : list A) (n : Z) : list A :=
  if bool_decide (0 <= n) then take (Z.to_nat n) l
  else take (length l - Z.to_nat (- n)) l.

(** [if value: filters[key] = value]. *)
Definition add_filter (key : string) (value : option string)
    (filters : gmap string string) : gmap string string :=
  match value with
  | Some v => if truthy v then <[key := v]> filters else filters
  | None => filters
  end.

Definition device_info (d : Device) : DeviceInfo :=
  let custom_fields :=
    omap (fun kv => match snd kv with
                    | Some v => Some (fst kv, v)
                    | None => None
                    end) (dev_custom_fields d) in
  mkDeviceInfo (dev_id d) (dev_name d) (dev_slug d) (dev_type d) (dev_role d)
    (dev_rack d)
    (match custom_fields with
     | [] => None
     | _ => Some custom_fields
     end).

Definition get_devices (nb : option DeviceApi)
    (site device_role device_type : option string) (limit : option Z)
  : DevicesResult :=
  match nb with
  | None =>
      DevicesError
        "NetBox connection not available. Check NETBOX_URL and NETBOX_API_TOKEN environment variables."
  | Some nb =>
      if truthy_int limit
         && bool_decide (default 0 limit < 1 \/ default 0 limit > 1000)
      then DevicesError "Limit must be between 1 and 1000"
      else
        let device_filters :=
          add_filter "device_type" device_type
            (add_filter "role" device_role
               (add_filter "site" site ∅)) in
        let devs := devices_filter nb device_filters in
        let devs := if truthy_int limit then slice_to devs (default 0 limit)
                    else devs in
        let result_devices := map device_info devs in
        DevicesFound result_devices
          (mkDevicesMetadata (length result_devices)
             (site, device_role, device_type)
             limit
             (if truthy_int limit
              then bool_decide (Z.of_nat (length devs) = default 0 limit)
              else false))
  end.

(** ** Reading results *)

(** The nodes of a tree, root first. *)
Fixpoint tree_nodes (node : TreeNode) : list TreeNode :=
  node :: flat_map tree_nodes (children node).

(** The identity of the termination a node stands for, read off the
    node's ["device"] and ["interface"] fields the way [term_id] is made
    from the termination. *)
Definition node_identity (node : TreeNode) : string :=
  String.append (default "unknown" (node_device node))
    (String.append "_" (default "unknown" (node_interface node))).

Definition node_ids (node : TreeNode) : list string :=
  map node_identity (tree_nodes node).

Definition result_ids (result : option TreeNode) : list string :=
  match result with
  | Some node => node_ids node
  | None => []
  end.

(** The keys of a [trace_from_interface] result. *)
Definition tree_error (r : TreeResult) : option ErrorKind :=
  match r with
  | TreeError e => Some e
  | _ => None
  end.

Definition tree_message (r : TreeResult) : option string :=
  match r with
  | MessageResult m _ => Some m
  | _ => None
  end.

Definition tree_of (r : TreeResult) : option TreeNode :=
  match r with
  | TreeError _ => None
  | MessageResult _ t => Some t
  | TreeFound t _ => Some t
  end.

(** A successful result of [trace_devices_connection] with no hop. *)
Definition zero_hop_path (r : TraceResult) : Prop :=
  match r with
  | PathResult _ _ _ _ total_hops => total_hops = 0
  | _ => False
  end.

(** A successful result with the given number of hops and a path of
    exactly one hop over the given cable. *)
Definition one_hop_over (cable_id : Z) (r : TraceResult) : Prop :=
  match r with
  | PathResult [hop] _ _ _ total_hops =>
      total_hops = 1 /\ hop_cable_id hop = cable_id
  | _ => False
  end.

Definition total_hops_of (r : TraceResult) : option Z :=
  match r with
  | PathResult _ _ _ _ total_hops => Some total_hops
  | _ => None
  end.

(** What the failure result reports about a search that met nowhere. *)
Definition exhausted_counts (max_iterations : Z) (r : TraceResult) : Prop :=
  match r with
  | PathResult _ _ _ _ _ => True
  | NoPathError _ _ _ explored_source explored_target =>
      (1 <= max_iterations /\ (1 <= explored_source)%nat
         /\ (1 <= explored_target)%nat)
      \/ (max_iterations <= 0 /\ explored_source = 0%nat
            /\ explored_target = 0%nat)
  | TraceError e => exists x, e = Failed x
  end.

(** ** Example inventories *)

Definition iface (n : Z) : TermRef := mkRef "dcim.interfaces" n.
Definition fport (n : Z) : TermRef := mkRef "dcim.front-ports" n.
Definition rport (n : Z) : TermRef := mkRef "dcim.rear-ports" n.

Definition no_termination : Termination := mkTermination None None None None [].

Definition term_table (l : list (TermRef * Termination)) (r : TermRef)
  : Termination :=
  match List.find (fun p => bool_decide (fst p = r)) l with
  | Some p => snd p
  | None => no_termination
  end.

Definition cable_table (l : list (Z * Cable)) (c : Z) : Cable :=
  match List.find (fun p => bool_decide (fst p = c)) l with
  | Some p => snd p
  | None => mkCable [] []
  end.

(** An inventory as a client library with another comparison of records
    presents it. *)
Definition with_comparison (cmp : RecordComparison) (nb : Inventory)
  : Inventory :=
  mkInventory (devices nb) (interfaces nb) (term nb) (cables nb) cmp.

(** Two devices joined by one straight cable, eth0 to eth0. *)
Definition straight_cable : Inventory :=
  mkInventory ["X"; "Y"] [iface 1; iface 2]
    (term_table
       [(iface 1, mkTermination (Some "X") (Some "eth0") (Some 7) None []);
        (iface 2, mkTermination (Some "Y") (Some "eth0") (Some 7) None [])])
    (cable_table [(7, mkCable [iface 1] [iface 2])])
    ByEndpointAndId.

(** A device with one interface and nothing plugged into it. *)
Definition lone_device : Inventory :=
  mkInventory ["X"] [iface 1]
    (term_table [(iface 1, mkTermination (Some "X") (Some "eth0") None None [])])
    (cable_table [])
    ByEndpointAndId.

(** A cable whose A side is empty and whose B side has two interfaces. *)
Definition one_sided_cable : Inventory :=
  mkInventory ["X"] [iface 1; iface 2]
    (term_table
       [(iface 1, mkTermination (Some "X") (Some "eth0") (Some 9) None []);
        (iface 2, mkTermination (Some "X") (Some "eth1") (Some 9) None [])])
    (cable_table [(9, mkCable [] [iface 1; iface 2])])
    ByEndpointAndId.

(** Switches S and M and patch panel T (front port f0 paired with rear port
    r0), wired with three breakout cables: S.e0+S.e1 to M.e0, S.e2+S.e3 to
    T.f0, and M.e1+M.e2 to T.r0. *)
Definition breakout_panel : Inventory :=
  mkInventory ["S"; "M"; "T"]
    [iface 1; iface 2; iface 3; iface 4; iface 5; iface 6; iface 7]
    (term_table
       [(iface 1, mkTermination (Some "S") (Some "e0") (Some 1) None []);
        (iface 2, mkTermination (Some "S") (Some "e1") (Some 1) None []);
        (iface 3, mkTermination (Some "S") (Some "e2") (Some 2) None []);
        (iface 4, mkTermination (Some "S") (Some "e3") (Some 2) None []);
        (iface 5, mkTermination (Some "M") (Some "e0") (Some 1) None []);
        (iface 6, mkTermination (Some "M") (Some "e1") (Some 3) None []);
        (iface 7, mkTermination (Some "M") (Some "e2") (Some 3) None []);
        (fport 1, mkTermination (Some "T") (Some "f0") (Some 2) (Some (rport 1)) []);
        (rport 1, mkTermination (Some "T") (Some "r0") (Some 3) None [fport 1])])
    (cable_table
       [(1, mkCable [iface 1; iface 2] [iface 5]);
        (2, mkCable [iface 3; iface 4] [fport 1]);
        (3, mkCable [iface 6; iface 7] [rport 1])])
    ByEndpointAndId.

(** ** Invariants of the tree build *)

Definition nodes_ids (nodes : list TreeNode) : list string :=
  flat_map node_ids nodes.

(** What a call of [_build_tree_node] does to the set it is given: the
    identities of the nodes it returns are distinct, were not in the set,
    and are what has been added to it. *)
Definition adds_fresh (seen : gset string) (ids : list string)
    (seen' : gset string) : Prop :=
  NoDup ids /\ (forall i, i ∈ ids -> i ∉ seen) /\ seen' = seen ∪ list_to_set ids.

Definition builder_ok
    (build : TermRef -> gset string -> option TreeNode * gset string) : Prop :=
  forall t seen, adds_fresh seen (result_ids (fst (build t seen))) (snd (build t seen)).

(** The same for the children collected so far by a loop that started with
    no child and the set [seen]. *)
Definition grown (seen : gset string) (st : list TreeNode * gset string) : Prop :=
  adds_fresh seen (nodes_ids (fst st)) (snd st).

(** ** Invariants of the bidirectional search *)

(** Once the origin of a search direction has been expanded: the origin is
    visited with the empty path, and every other device has a path of at
    least one hop, both where it is visited and where it is only
    discovered. *)
Definition rooted (origin : string) (visited path_to_origin : Paths) : Prop :=
  visited !! origin = Some []
  /\ (forall k l, k <> origin -> visited !! k = Some l -> l <> [])
  /\ (forall k l, k <> origin -> path_to_origin !! k = Some l -> l <> []).

Definition rooted_state (origin : string) (st : Frontier) : Prop :=
  rooted origin (visited st) (path_to_origin st).

(** A search direction before a round: untouched, or rooted. *)
Definition ready (origin : string) (frontier : list string)
    (visited path_to_origin : Paths) : Prop :=
  (frontier = [origin] /\ visited = ∅ /\ path_to_origin = {[origin := []]})
  \/ rooted origin visited path_to_origin.

(** What [search] can return for given numbers of rounds left and
    dictionaries of visited devices. *)
Definition search_outcome (source_device target_device : string) (rounds : nat)
    (source_visited target_visited : Paths) (r : TraceResult) : Prop :=
  match r with
  | PathResult _ meeting source_hops target_hops total_hops =>
      total_hops = Z.of_nat source_hops + Z.of_nat target_hops - 1
      /\ (source_hops = 0%nat <-> meeting = source_device)
      /\ (target_hops = 0%nat <-> meeting = target_device)
  | NoPathError s t _ explored_source explored_target =>
      s = source_device /\ t = target_device
      /\ ((rounds = 0%nat /\ explored_source = size source_visited
             /\ explored_target = size target_visited)
          \/ (rounds <> 0%nat /\ (1 <= explored_source)%nat
                /\ (1 <= explored_target)%nat))
  | TraceError _ => False
  end.

(** ** Recorded paths *)

(** A path of hops that starts at one device, each hop leaving the device
    the previous hop arrived at, and arrives at another. *)
Fixpoint chain (from : string) (path : list PathHop) (to : string) : Prop :=
  match path with
  | [] => from = to
  | hop :: rest => hop_device hop = from /\ chain (hop_next_device hop) rest to
  end.

(** A hop that leaves its device through one of the cabled interfaces the
    inventory lists for it, over that interface's cable. *)
Definition inventory_hop (nb : Inventory) (hop : PathHop) : Prop :=
  exists i, i ∈ interfaces nb
    /\ device (term nb i) = Some (hop_device hop)
    /\ name (term nb i) = Some (hop_interface hop)
    /\ cable (term nb i) = Some (hop_cable_id hop).

(** Every path recorded in a dictionary leads from the origin to the
    device it is recorded for, over hops of the inventory. *)
Definition paths_ok (nb : Inventory) (origin : string) (m : Paths) : Prop :=
  forall k path, m !! k = Some path ->
    chain origin path k /\ Forall (inventory_hop nb) path.

(** Three devices on one breakout cable; the interface of X has no name
    attribute. *)
Definition nameless_fanout : Inventory :=
  mkInventory ["X"; "Y"; "Z"] [iface 1; iface 2; iface 3]
    (term_table
       [(iface 1, mkTermination (Some "X") None (Some 4) None []);
        (iface 2, mkTermination (Some "Y") (Some "eth0") (Some 4) None []);
        (iface 3, mkTermination (Some "Z") (Some "eth0") (Some 4) None [])])
    (cable_table [(4, mkCable [iface 1] [iface 2; iface 3])])
    ByEndpointAndId.

(** The same with every interface named. *)
Definition fanout : Inventory :=
  mkInventory ["X"; "Y"; "Z"] [iface 1; iface 2; iface 3]
    (term_table
       [(iface 1, mkTermination (Some "X") (Some "eth0") (Some 4) None []);
        (iface 2, mkTermination (Some "Y") (Some "eth0") (Some 4) None []);
        (iface 3, mkTermination (Some "Z") (Some "eth0") (Some 4) None [])])
    (cable_table [(4, mkCable [iface 1] [iface 2; iface 3])])
    ByEndpointAndId.

(** What an expansion of the frontier [devs] that started from the
    dictionaries [v] and [p] has kept so far. *)
Definition bookkeeping (nb : Inventory) (devs : list string) (v p : Paths)
    (s : Frontier) : Prop :=
  (forall k path, v !! k = Some path -> visited s !! k = Some path)
  /\ (forall k, is_Some (visited s !! k) ->
        is_Some (v !! k) \/ (k ∈ devs /\ k ∈ devices nb))
  /\ (forall k, is_Some (p !! k) -> is_Some (path_to_origin s !! k))
  /\ (forall d, d ∈ new_devices s ->
        v !! d = None /\ is_Some (path_to_origin s !! d)).

(** ** Trees that follow the cable graph *)

(** The node dictionary made from a termination at a depth, whatever its
    children. *)
Definition node_of (nb : Inventory) (t : TermRef) (depth : Z) (n : TreeNode)
  : Prop :=
  node_device n = device (term nb t)
  /\ node_interface n = name (term nb t)
  /\ node_type n = match device (term nb t) with
                   | Some _ => "interface"
                   | None => "port"
                   end
  /\ node_cable_id n = cable (term nb t)
  /\ node_depth n = Some depth.

(** A tree that stands for a termination at a depth below [max_depth], in
    which every child of a node stands, one level deeper, for one of the
    next terminations of the termination its parent stands for. *)
Fixpoint follows (nb : Inventory) (max_depth : Z) (t : TermRef) (depth : Z)
    (n : TreeNode) {struct n} : Prop :=
  node_of nb t depth n
  /\ depth < max_depth
  /\ (fix each (l : list TreeNode) : Prop :=
        match l with
        | [] => True
        | child :: rest =>
            (exists u, u ∈ _get_next_terminations nb t
               /\ follows nb max_depth u (depth + 1) child)
            /\ each rest
        end) (children n).

(** The cable ids that [count_cables] counts in a list of nodes. *)
Definition counted_cables (nodes : list TreeNode) : list Z :=
  omap (fun n => match node_cable_id n with
                 | Some c => if bool_decide (c <> 0) then Some c else None
                 | None => None
                 end) nodes.

(** The children collected by the loops of a node that stands for [t]. *)
Definition child_nodes_ok (nb : Inventory) (max_depth : Z) (t : TermRef)
    (depth : Z) (nodes : list TreeNode) : Prop :=
  Forall (fun child =>
            exists u, u ∈ _get_next_terminations nb t
              /\ follows nb max_depth u (depth + 1) child) nodes.

(** ** An example devices endpoint *)

Definition plain_device (id : Z) (name : string) : Device :=
  mkDevice id (Some name) None None None None [].

(** Three devices, whatever the filters. *)
Definition three_devices : DeviceApi :=
  mkDeviceApi
    (fun _ => [plain_device 1 "a"; plain_device 2 "b"; plain_device 3 "c"]).

(** * Properties *)

(** ** Cable graph accessors *)

Section AccessorFacts.
Context (nb : Inventory).

Lemma collect_other_filter termination todo acc :
  collect_other nb termination todo acc
  = acc ++ filter (fun t => record_ne nb t termination = true) todo.
Proof.
  revert acc. induction todo as [|t rest IH]; intros acc; simpl.
  - by rewrite app_nil_r.
  - rewrite filter_cons.
    destruct (record_ne nb t termination) eqn:Hne.
    + rewrite decide_True by done. rewrite IH, <- app_assoc. done.
    + rewrite decide_False by done. apply IH.
Qed.

Lemma record_ne_sym (a b : TermRef) : record_ne nb a b = record_ne nb b a.
Proof.
  unfold record_ne. destruct (comparison nb); [|done].
  apply bool_decide_ext. split; intros Hne Heq; by apply Hne.
Qed.

Lemma record_ne_self (a : TermRef) :
  record_ne nb a a = true <-> comparison nb = NeverEqual.
Proof.
  unfold record_ne. destruct (comparison nb); [|done].
  rewrite bool_decide_eq_false_2 by (intros Hne; by apply Hne). done.
Qed.

Lemma fold_next_step ts acc :
  fold_left (next_step nb) ts acc
  = acc ++ flat_map (fun t => t :: paired_ports nb t) ts.
Proof.
  revert acc. induction ts as [|t ts IH]; intros acc; simpl.
  - by rewrite app_nil_r.
  - rewrite IH. unfold next_step, paired_ports.
    destruct (rear_port (term nb t)) as [r|].
    + by rewrite <- !app_assoc.
    + destruct (front_ports (term nb t)) as [|fp fps].
      * by rewrite <- !app_assoc.
      * by rewrite <- !app_assoc.
Qed.

Lemma connected_uncabled termination :
  cable (term nb termination) = None ->
  _get_connected_terminations nb termination = [].
Proof. unfold _get_connected_terminations. by intros ->. Qed.

Lemma next_flat_map termination :
  _get_next_terminations nb termination
  = flat_map (fun t => t :: paired_ports nb t)
      (_get_connected_terminations nb termination).
Proof.
  unfold _get_next_terminations.
  destruct (cable (term nb termination)) as [c|] eqn:Hc.
  - by rewrite fold_next_step.
  - by rewrite connected_uncabled.
Qed.

End AccessorFacts.

(** The connected terminations are the members of the cable that the
    client library tells apart from the termination. *)
Lemma connected_terminations_filter (nb : Inventory) (t : TermRef) :
  _get_connected_terminations nb t
  = match cable (term nb t) with
    | None => []
    | Some c =>
        match a_terminations (cables nb c) with
        | [] => []
        | _ :: _ =>
            filter (fun x => record_ne nb x t = true)
              (a_terminations (cables nb c) ++ b_terminations (cables nb c))
        end
    end.
Proof.
  unfold _get_connected_terminations.
  destruct (cable (term nb t)) as [c|]; [|done].
  destruct (a_terminations (cables nb c)) as [|a rest] eqn:Ha; [done|].
  by rewrite collect_other_filter.
Qed.

Lemma connected_elem (nb : Inventory) (t u : TermRef) :
  u ∈ _get_connected_terminations nb t
  <-> exists c, cable (term nb t) = Some c
        /\ a_terminations (cables nb c) <> []
        /\ u ∈ a_terminations (cables nb c) ++ b_terminations (cables nb c)
        /\ record_ne nb u t = true.
Proof.
  rewrite connected_terminations_filter.
  destruct (cable (term nb t)) as [c|].
  - destruct (a_terminations (cables nb c)) as [|a rest] eqn:Ha.
    + split; [by intros ?%not_elem_of_nil|].
      intros (c' & [= <-] & Hne & _). by rewrite Ha in Hne.
    + rewrite list_elem_of_filter. split.
      * intros [Hne Hu]. exists c. by rewrite Ha.
      * intros (c' & [= <-] & _ & Hu & Hne). by rewrite Ha in Hu.
  - split; [by intros ?%not_elem_of_nil|]. by intros (c & ? & _).
Qed.

(** With records compared by endpoint and id, the connected terminations
    are the other terminations of the cable. *)
Lemma connected_terminations_unfold (nb : Inventory) (t : TermRef) :
  comparison nb = ByEndpointAndId ->
  _get_connected_terminations nb t
  = match cable (term nb t) with
    | None => []
    | Some c =>
        match a_terminations (cables nb c) with
        | [] => []
        | _ :: _ => others_on_cable nb t
        end
    end.
Proof.
  intros Hcmp. rewrite connected_terminations_filter. unfold others_on_cable.
  destruct (cable (term nb t)) as [c|]; [|done].
  destruct (a_terminations (cables nb c)) as [|a rest]; [done|].
  apply list_filter_iff. intros x. unfold record_ne. rewrite Hcmp.
  by rewrite bool_decide_eq_true.
Qed.

(** C5, as the code has it: a termination without a cable has no connected
    terminations, and on a cable whose A side is empty there are none,
    whatever the B side holds.  On a cable whose A side is not empty the
    connected terminations are the members of the A side and of the B
    side, in that order, that [term != termination] tells apart from the
    termination: all of them except the termination itself when the client
    library compares records by endpoint and id, and all of them, the
    termination itself included, when it never finds two records equal. *)
Theorem connected_terminations_spec (nb : Inventory) (t : TermRef) :
  _get_connected_terminations nb t
  = match cable (term nb t) with
    | None => []
    | Some c =>
        match a_terminations (cables nb c) with
        | [] => []
        | _ :: _ =>
            match comparison nb with
            | ByEndpointAndId => others_on_cable nb t
            | NeverEqual =>
                a_terminations (cables nb c) ++ b_terminations (cables nb c)
            end
        end
    end.
Proof.
  destruct (comparison nb) eqn:Hcmp.
  - by apply connected_terminations_unfold.
  - rewrite connected_terminations_filter.
    destruct (cable (term nb t)) as [c|]; [|done].
    destruct (a_terminations (cables nb c)) as [|a rest]; [done|].
    unfold record_ne. rewrite Hcmp.
    induction (_ ++ _) as [|x l IH]; [done|].
    rewrite filter_cons, decide_True by done. by rewrite IH.
Qed.

(** C5 fails as stated: on the cable with an empty A side, eth1 is another
    termination of eth0's cable, and it is not returned. *)
Lemma connected_terminations_one_sided :
  cable (term one_sided_cable (iface 1)) = Some 9
  /\ iface 2 ∈ b_terminations (cables one_sided_cable 9)
  /\ iface 2 <> iface 1
  /\ others_on_cable one_sided_cable (iface 1) = [iface 2]
  /\ _get_connected_terminations one_sided_cable (iface 1) = [].
Proof.
  split; [reflexivity|].
  split; [rewrite list_elem_of_In; vm_compute; auto|].
  split; [discriminate|].
  split; reflexivity.
Qed.

(** C6: the next terminations of [t] are its connected terminations, each
    followed by its paired rear port when it has one, and otherwise by all
    its paired front ports; nothing else is returned. *)
Theorem next_terminations_spec (nb : Inventory) (t : TermRef) :
  _get_next_terminations nb t
  = flat_map (fun c => c :: paired_ports nb c) (_get_connected_terminations nb t)
  /\ forall x,
       x ∈ _get_next_terminations nb t
       <-> x ∈ _get_connected_terminations nb t
           \/ exists c, c ∈ _get_connected_terminations nb t
                /\ (rear_port (term nb c) = Some x
                    \/ (rear_port (term nb c) = None
                        /\ x ∈ front_ports (term nb c))).
Proof.
  split; [apply next_flat_map|].
  intros x. rewrite next_flat_map, !list_elem_of_In, in_flat_map.
  split.
  - intros (c & Hc & [->|Hx]); [by left|].
    right. exists c. rewrite !list_elem_of_In. split; [done|].
    unfold paired_ports in Hx.
    destruct (rear_port (term nb c)) as [r|].
    + left. destruct Hx as [->|[]]. done.
    + right. done.
  - intros [Hx|(c & Hc & Hp)].
    + exists x. split; [done|by left].
    + exists c. rewrite list_elem_of_In in Hc. split; [done|]. right.
      unfold paired_ports. destruct Hp as [->|[-> Hx]].
      * by left.
      * by rewrite <- list_elem_of_In.
Qed.

(** ** Device listing *)

(** C10: with [limit = 0] the range check is skipped and nothing is cut:
    every device the filters match is returned, and the result is not marked
    as truncated. *)
Theorem get_devices_limit_zero (api : DeviceApi)
    (site device_role device_type : option string) :
  get_devices (Some api) site device_role device_type (Some 0)
  = let matching :=
      devices_filter api
        (add_filter "device_type" device_type
           (add_filter "role" device_role (add_filter "site" site ∅))) in
    DevicesFound (map device_info matching)
      (mkDevicesMetadata (length matching) (site, device_role, device_type)
         (Some 0) false).
Proof.
  unfold get_devices. simpl. by rewrite length_map.
Qed.

(** Any other limit outside 1..1000 is refused. *)
Lemma get_devices_limit_refused (api : DeviceApi)
    (site device_role device_type : option string) (limit : Z) :
  limit <> 0 -> limit < 1 \/ limit > 1000 ->
  get_devices (Some api) site device_role device_type (Some limit)
  = DevicesError "Limit must be between 1 and 1000".
Proof.
  intros Hnz Hout. unfold get_devices, truthy_int. cbn [default].
  rewrite (bool_decide_eq_true_2 _ Hnz), (bool_decide_eq_true_2 _ Hout). done.
Qed.

(** ** Topology tree tracer *)

(** C7: tracing from an interface that exists and has no cable gives a
    result without an error, with the explanatory message and with a tree
    of one node whose list of children is empty. *)
Theorem trace_from_interface_uncabled (nb : Inventory)
    (device_name interface_name : string) (max_depth : Z) (interface : TermRef) :
  interfaces_get nb device_name interface_name = Some interface ->
  cable (term nb interface) = None ->
  tree_error (trace_from_interface (Some nb) device_name interface_name max_depth)
  = None
  /\ tree_message
       (trace_from_interface (Some nb) device_name interface_name max_depth)
     = Some (String.append "Interface '"
               (String.append interface_name
                  (String.append "' on device '"
                     (String.append device_name "' has no cable connected"))))
  /\ tree_of (trace_from_interface (Some nb) device_name interface_name max_depth)
     = Some (mkNode (Some device_name) (Some interface_name) "interface"
               None None []).
Proof.
  intros Hget Hcable. unfold trace_from_interface.
  rewrite Hget, Hcable. done.
Qed.

Lemma trace_from_interface_uncabled_witness :
  interfaces_get lone_device "X" "eth0" = Some (iface 1)
  /\ cable (term lone_device (iface 1)) = None
  /\ tree_message (trace_from_interface (Some lone_device) "X" "eth0" 10)
     = Some "Interface 'eth0' on device 'X' has no cable connected".
Proof.
  split; [reflexivity|]. split; [reflexivity|].
  apply (trace_from_interface_uncabled lone_device "X" "eth0" 10 (iface 1));
    reflexivity.
Defined.

(** C9: tracing from a cabled interface with [max_depth <= 0] builds no
    root node, and the result is the top-level error object made from the
    exception that counting the nodes of nothing raises. *)
Theorem trace_from_interface_no_depth (nb : Inventory)
    (device_name interface_name : string) (max_depth : Z) (interface : TermRef) :
  interfaces_get nb device_name interface_name = Some interface ->
  is_Some (cable (term nb interface)) ->
  max_depth <= 0 ->
  fst (_build_tree_node nb interface ∅ 0 max_depth) = None
  /\ trace_from_interface (Some nb) device_name interface_name max_depth
     = TreeError (Failed (AttributeError "get")).
Proof.
  intros Hget [c Hcable] Hdepth.
  assert (Hnone : fst (_build_tree_node nb interface ∅ 0 max_depth) = None).
  { unfold _build_tree_node.
    replace (Z.to_nat (max_depth - 0)) with 0%nat by lia. done. }
  split; [done|].
  unfold trace_from_interface. by rewrite Hget, Hcable, Hnone.
Qed.

Lemma trace_from_interface_no_depth_witness :
  interfaces_get straight_cable "X" "eth0" = Some (iface 1)
  /\ is_Some (cable (term straight_cable (iface 1)))
  /\ trace_from_interface (Some straight_cable) "X" "eth0" 0
     = TreeError (Failed (AttributeError "get")).
Proof.
  split; [reflexivity|]. split; [by exists 7|].
  apply (trace_from_interface_no_depth straight_cable "X" "eth0" 0 (iface 1));
    [reflexivity | by exists 7 | lia].
Defined.

Lemma node_ids_unfold (n : TreeNode) :
  node_ids n = node_identity n :: nodes_ids (children n).
Proof.
  unfold node_ids, nodes_ids. destruct n as [d i ty c dp ch]. simpl. f_equal.
  induction ch as [|x ch IH]; [done|].
  simpl. by rewrite map_app, IH.
Qed.

Lemma nodes_ids_append (nodes : list TreeNode) (r : option TreeNode) :
  nodes_ids (append_node nodes r) = nodes_ids nodes ++ result_ids r.
Proof.
  unfold nodes_ids. destruct r as [n|]; simpl.
  - by rewrite flat_map_app; simpl; rewrite app_nil_r.
  - by rewrite app_nil_r.
Qed.

Lemma adds_fresh_none (seen : gset string) : adds_fresh seen [] seen.
Proof.
  split; [constructor|]. split; [by intros i Hi; inversion Hi|].
  simpl. set_solver.
Qed.

(** One more call after the children collected so far. *)
Lemma grown_call build seen0 st t :
  builder_ok build -> grown seen0 st ->
  grown seen0 (append_node (fst st) (fst (build t (snd st))), snd (build t (snd st))).
Proof.
  intros Hb (Hnd & Hfresh & Hseen). destruct (Hb t (snd st)) as (Hnd' & Hfresh' & Hseen').
  unfold grown, adds_fresh. simpl. rewrite nodes_ids_append.
  split; [|split].
  - apply NoDup_app. split; [done|]. split; [|done].
    intros i Hi Hi'. apply (Hfresh' i Hi'). rewrite Hseen.
    apply elem_of_union_r, elem_of_list_to_set, Hi.
  - intros i [Hi|Hi]%elem_of_app; [by apply Hfresh|].
    intros Hin. apply (Hfresh' i Hi). rewrite Hseen. by apply elem_of_union_l.
  - rewrite Hseen', Hseen, list_to_set_app_L. set_solver.
Qed.

Section ChildrenFacts.
Context (nb : Inventory).
Context (build : TermRef -> gset string -> option TreeNode * gset string).
Context (Hbuild : builder_ok build).

Lemma build_each_grown seen0 ts st :
  grown seen0 st -> grown seen0 (build_each build ts st).
Proof.
  revert st. induction ts as [|t ts IH]; intros st Hst; simpl; [done|].
  pose proof (grown_call build seen0 st t Hbuild Hst) as Hnext.
  destruct (build t (snd st)) as [node seen]. by apply IH.
Qed.

Lemma build_connected_grown seen0 st t :
  grown seen0 st -> grown seen0 (build_connected nb build st t).
Proof.
  intros Hst. unfold build_connected.
  pose proof (grown_call build seen0 st t Hbuild Hst) as Hnext.
  destruct (build t (snd st)) as [child seen]. simpl in Hnext.
  destruct (rear_port (term nb t)) as [r|].
  - pose proof (grown_call build seen0 _ r Hbuild Hnext) as Hrear.
    simpl in Hrear. by destruct (build r seen) as [rear seen'].
  - destruct (front_ports (term nb t)) as [|fp fps]; [done|].
    by apply build_each_grown.
Qed.

Lemma fold_connected_grown seen0 ts st :
  grown seen0 st -> grown seen0 (fold_left (build_connected nb build) ts st).
Proof.
  revert st. induction ts as [|t ts IH]; intros st Hst; simpl; [done|].
  by apply IH, build_connected_grown.
Qed.
End ChildrenFacts.

Lemma build_tree_ok (nb : Inventory) (left : nat) (current_depth : Z) :
  builder_ok (fun t seen => build_tree nb left t seen current_depth).
Proof.
  revert current_depth. induction left as [|left IH]; intros depth t seen.
  - apply adds_fresh_none.
  - simpl. case_bool_decide as Hin; [apply adds_fresh_none|].
    set (seen1 := {[term_id nb t]} ∪ seen).
    assert (Hloop : grown seen1
      match cable (term nb t) with
      | Some _ =>
          fold_left
            (build_connected nb (fun t s => build_tree nb left t s (depth + 1)))
            (_get_connected_terminations nb t) ([], seen1)
      | None => ([], seen1)
      end).
    { destruct (cable (term nb t)).
      - apply fold_connected_grown; [apply IH|apply adds_fresh_none].
      - apply adds_fresh_none. }
    destruct (match cable (term nb t) with Some _ => _ | None => _ end)
      as [nodes seen2].
    destruct Hloop as (Hnd & Hfresh & Hseen). simpl in Hnd, Hfresh, Hseen.
    simpl. rewrite node_ids_unfold. simpl.
    change (node_identity _) with (term_id nb t).
    split; [|split].
    + constructor; [|done]. intros Hi. apply (Hfresh _ Hi).
      subst seen1. set_solver.
    + intros i [->|Hi]%elem_of_cons; [done|].
      intros Hs. apply (Hfresh _ Hi). subst seen1. set_solver.
    + rewrite Hseen. subst seen1. set_solver.
Qed.

(** [_build_tree_node] satisfies the equation its source is written by. *)
Lemma _build_tree_node_unfold (nb : Inventory) (termination : TermRef)
    (visited_terminations : gset string) (current_depth max_depth : Z) :
  _build_tree_node nb termination visited_terminations current_depth max_depth
  = if bool_decide (max_depth <= current_depth)
    then (None, visited_terminations)
    else if bool_decide (term_id nb termination ∈ visited_terminations)
    then (None, visited_terminations)
    else
      let seen := {[term_id nb termination]} ∪ visited_terminations in
      let '(nodes, seen) :=
        match cable (term nb termination) with
        | None => ([], seen)
        | Some _ =>
            fold_left
              (build_connected nb
                 (fun t s => _build_tree_node nb t s (current_depth + 1) max_depth))
              (_get_connected_terminations nb termination) ([], seen)
        end in
      (Some (mkNode (device (term nb termination)) (name (term nb termination))
               (match device (term nb termination) with
                | Some _ => "interface"
                | None => "port"
                end)
               (cable (term nb termination)) (Some current_depth) nodes),
       seen).
Proof.
  unfold _build_tree_node. case_bool_decide as Hdepth.
  - replace (Z.to_nat (max_depth - current_depth)) with 0%nat by lia. done.
  - replace (Z.to_nat (max_depth - current_depth))
      with (S (Z.to_nat (max_depth - (current_depth + 1)))) by lia.
    done.
Qed.

(** C4: whatever the starting termination, the set of identities already
    seen, the depth and the wiring (cycles included), [_build_tree_node]
    returns a tree, or nothing, in which no identity occurs twice; the
    identities of the tree were not seen before, and they are exactly what
    the call has added to the set. *)
Theorem build_tree_node_identities_once (nb : Inventory) (termination : TermRef)
    (visited_terminations : gset string) (current_depth max_depth : Z) :
  NoDup (result_ids
           (fst (_build_tree_node nb termination visited_terminations
                   current_depth max_depth)))
  /\ list_to_set
       (result_ids
          (fst (_build_tree_node nb termination visited_terminations
                  current_depth max_depth)))
     ## visited_terminations
  /\ snd (_build_tree_node nb termination visited_terminations
            current_depth max_depth)
     = visited_terminations
       ∪ list_to_set
           (result_ids
              (fst (_build_tree_node nb termination visited_terminations
                      current_depth max_depth))).
Proof.
  unfold _build_tree_node.
  destruct (build_tree_ok nb (Z.to_nat (max_depth - current_depth))
              current_depth termination visited_terminations)
    as (Hnd & Hfresh & Hseen).
  split; [done|]. split; [|done].
  intros i Hi Hv. apply elem_of_list_to_set in Hi. by apply (Hfresh i).
Qed.

(** ** Bidirectional path tracer *)

Lemma bind_inr {A B} (m : Exc A) (k : A -> Exc B) (b : B) :
  bind m k = inr b -> exists a, m = inr a /\ k a = inr b.
Proof. destruct m as [e|a]; simpl; [done|]. intros H. by exists a. Qed.

(** A property kept by the body of a loop is kept by the loop. *)
Lemma for_each_invariant {A S} (P : S -> Prop) (body : S -> A -> Exc S)
    (l : list A) (s s' : S) :
  (forall s x s', P s -> body s x = inr s' -> P s') ->
  P s -> for_each body l s = inr s' -> P s'.
Proof.
  intros Hbody. revert s. induction l as [|x l IH]; intros s Hs Hrun; simpl in Hrun.
  - by injection Hrun as <-.
  - apply bind_inr in Hrun as (s1 & Hstep & Hrest).
    apply (IH s1); [by apply (Hbody s x)|done].
Qed.

Lemma contains_false {V} (d : gmap string V) (k : string) :
  contains d k = false -> d !! k = None.
Proof.
  unfold contains. intros H%bool_decide_eq_false.
  destruct (d !! k) eqn:E; [|done]. exfalso. apply H. by eexists.
Qed.

Lemma contains_true {V} (d : gmap string V) (k : string) :
  contains d k = true -> is_Some (d !! k).
Proof. unfold contains. by intros H%bool_decide_eq_true. Qed.

Lemma getitem_inr {V} (d : gmap string V) (k : string) (v : V) :
  getitem d k = inr v -> d !! k = Some v.
Proof. unfold getitem. destruct (d !! k); [by intros [= ->]|done]. Qed.

Lemma rooted_size (origin : string) (v p : Paths) :
  rooted origin v p -> (1 <= size v)%nat.
Proof.
  intros (Ho & _). destruct (size v) eqn:E; [|lia].
  apply map_size_empty_inv in E. subst v. by rewrite lookup_empty in Ho.
Qed.

Section SearchFacts.
Context (nb : Inventory).

Lemma discover_rooted origin device_name interface cable_id st next_term st' :
  rooted_state origin st ->
  discover nb device_name interface cable_id st next_term = inr st' ->
  rooted_state origin st'.
Proof.
  intros (Ho & Hv & Hp). unfold discover.
  destruct (device (term nb next_term)) as [next_device|]; [|by intros [= <-]].
  destruct (contains (visited st) next_device) eqn:Hc; [by intros [= <-]|].
  apply contains_false in Hc.
  intros (origin_path & Hget & Hrest)%bind_inr.
  destruct (name (term nb interface)) as [interface_name|]; [|done].
  injection Hrest as <-. unfold rooted_state. simpl.
  split; [done|]. split; [done|].
  intros k l Hk. destruct (decide (next_device = k)) as [->|Hne].
  - rewrite lookup_insert_eq. intros [= <-]. by destruct origin_path.
  - rewrite lookup_insert_ne by done. by apply Hp.
Qed.

Lemma expand_interface_rooted origin device_name st interface st' :
  rooted_state origin st ->
  expand_interface nb device_name st interface = inr st' ->
  rooted_state origin st'.
Proof.
  intros Hst. unfold expand_interface.
  destruct (cable (term nb interface)) as [cable_id|]; [|by intros [= <-]].
  apply for_each_invariant; [|done].
  intros s t s1 Hs. apply for_each_invariant; [|done].
  intros s2 next_term s3. apply discover_rooted.
Qed.

(** Marking a device visited and scanning its interfaces. *)
Lemma visit_rooted origin device_name origin_path v p news st' :
  rooted origin (<[device_name := origin_path]> v) p ->
  for_each (expand_interface nb device_name) (interfaces_filter nb device_name)
    (mkFrontier (<[device_name := origin_path]> v) p news) = inr st' ->
  rooted_state origin st'.
Proof.
  intros Hst. apply for_each_invariant; [|done].
  intros s i s1. apply expand_interface_rooted.
Qed.

Lemma expand_device_rooted origin st device_name st' :
  rooted_state origin st ->
  expand_device nb st device_name = inr st' ->
  rooted_state origin st'.
Proof.
  intros (Ho & Hv & Hp). unfold expand_device.
  destruct (contains (visited st) device_name) eqn:Hc; [by intros [= <-]|].
  apply contains_false in Hc.
  destruct (negb (devices_get nb device_name)); [by intros [= <-]|].
  intros (origin_path & Hget%getitem_inr & Hrest)%bind_inr.
  assert (Hne : device_name <> origin) by (intros ->; congruence).
  revert Hrest. apply visit_rooted.
  split; [by rewrite lookup_insert_ne|]. split; [|done].
  intros k l Hk. destruct (decide (device_name = k)) as [->|Hdk].
  - rewrite lookup_insert_eq. intros [= <-]. by apply (Hp k).
  - rewrite lookup_insert_ne by done. by apply Hv.
Qed.

Lemma expand_frontier_rooted origin frontier v p st :
  devices_get nb origin = true ->
  ready origin frontier v p ->
  _expand_frontier nb frontier v p = inr st ->
  rooted_state origin st.
Proof.
  intros Hex [(-> & -> & ->)|Hrooted]; unfold _expand_frontier.
  - simpl. intros (st1 & Hfirst & [= <-])%bind_inr. revert Hfirst.
    unfold expand_device. simpl.
    replace (contains (∅ : Paths) origin) with false
      by (symmetry; apply bool_decide_eq_false; rewrite lookup_empty;
          by intros [? ?]).
    rewrite Hex. simpl. unfold getitem. rewrite lookup_singleton_eq. simpl.
    apply visit_rooted.
    split; [by rewrite lookup_insert_eq|]. split.
    + intros k l Hk. rewrite lookup_insert_ne by done.
      by rewrite lookup_empty.
    + intros k l Hk. by rewrite lookup_singleton_ne.
  - apply (for_each_invariant (rooted_state origin)); [|done].
    intros s d s1. apply expand_device_rooted.
Qed.

Lemma build_complete_path_outcome source target rounds sv tv sp sv0 tv0 m r :
  rooted source sv sp ->
  tv = ∅ \/ (exists tp, rooted target tv tp) ->
  _build_complete_path m sv tv = inr r ->
  search_outcome source target rounds sv0 tv0 r.
Proof.
  intros (Hso & Hsv & _) Ht. unfold _build_complete_path.
  intros (spath & Hsp%getitem_inr & Hrest)%bind_inr.
  apply bind_inr in Hrest as (tpath & Htp%getitem_inr & [= <-]).
  destruct Ht as [->|(tp & Hto & Htv & _)]; [by rewrite lookup_empty in Htp|].
  simpl. split; [done|]. split.
  - split.
    + intros Hlen. destruct (decide (m = source)) as [|Hne]; [done|].
      destruct spath; [|done]. by destruct (Hsv m [] Hne Hsp).
    + intros ->. rewrite Hso in Hsp. by injection Hsp as <-.
  - split.
    + intros Hlen. destruct (decide (m = target)) as [|Hne]; [done|].
      destruct tpath; [|done]. by destruct (Htv m [] Hne Htp).
    + intros ->. rewrite Hto in Htp. by injection Htp as <-.
Qed.

Lemma search_sound source target max_iterations rounds sf tf sv tv sp tp r :
  devices_get nb source = true ->
  devices_get nb target = true ->
  ready source sf sv sp ->
  ready target tf tv tp ->
  search nb source target max_iterations rounds sf tf sv tv sp tp = inr r ->
  search_outcome source target rounds sv tv r.
Proof.
  intros Hs Ht. revert sf tf sv tv sp tp.
  induction rounds as [|rounds IH]; intros sf tf sv tv sp tp Hsrc Htgt; simpl.
  - intros [= <-]. simpl. split; [done|]. split; [done|]. by left.
  - intros (src & Hexp_s & Hrun)%bind_inr.
    pose proof (expand_frontier_rooted source sf sv sp src Hs Hsrc Hexp_s)
      as Hsrc'.
    destruct (found (_find_intersection (new_devices src) tv)) as [m|].
    { revert Hrun. apply (build_complete_path_outcome _ _ _ _ _ _ _ _ _ _ Hsrc').
      destruct Htgt as [(_ & -> & _)|Hr]; [by left|right; by exists tp]. }
    apply bind_inr in Hrun as (tgt & Hexp_t & Hrun).
    pose proof (expand_frontier_rooted target tf tv tp tgt Ht Htgt Hexp_t)
      as Htgt'.
    destruct (found (_find_intersection (new_devices tgt) (visited src)))
      as [m|].
    { revert Hrun. apply (build_complete_path_outcome _ _ _ _ _ _ _ _ _ _ Hsrc').
      right. by exists (path_to_origin tgt). }
    assert (Hsizes : (1 <= size (visited src))%nat /\ (1 <= size (visited tgt))%nat).
    { split; eapply rooted_size; eassumption. }
    assert (Hlast :
      ret (NoPathError source target max_iterations
             (size (visited src)) (size (visited tgt))) = inr r ->
      search_outcome source target (S rounds) sv tv r).
    { intros [= <-]. simpl. split; [done|]. split; [done|]. right.
      split; [done|]. done. }
    assert (Hnext :
      search nb source target max_iterations rounds
        (new_devices src) (new_devices tgt) (visited src) (visited tgt)
        (path_to_origin src) (path_to_origin tgt) = inr r ->
      search_outcome source target (S rounds) sv tv r).
    { intros Hrec. apply IH in Hrec; [|by right|by right].
      destruct r as [path m sh th total|s' t' mi' a b|e]; [done| |done].
      destruct Hrec as (-> & -> & Hcounts). simpl.
      split; [done|]. split; [done|]. right. split; [done|].
      destruct Hcounts as [(_ & -> & ->)|(_ & Ha & Hb)]; [done|done]. }
    destruct (new_devices src), (new_devices tgt); auto.
Qed.

End SearchFacts.

(** C1, as the code has it: tracing from a device to itself never gives a
    zero-hop path.  The result is an error object, or a path whose
    [total_hops] is not 0. *)
Theorem trace_self_never_zero_hops (nb : Inventory) (device_name : string)
    (max_iterations : Z) :
  ~ zero_hop_path
      (trace_devices_connection (Some nb) device_name device_name max_iterations).
Proof.
  unfold trace_devices_connection.
  destruct (devices_get nb device_name) eqn:Hex; simpl; [|tauto].
  destruct (search _ _ _ _ _ _ _ _ _ _ _) as [e|r] eqn:Hrun; [simpl; tauto|].
  apply search_sound in Hrun; [|done|done|by left|by left].
  destruct r as [path m sh th total| |]; simpl; [|tauto|tauto].
  destruct Hrun as (-> & Hs & Ht). intros Hzero.
  assert (sh = 0%nat <-> th = 0%nat) by (rewrite Hs, Ht; tauto).
  lia.
Qed.

(** C1 fails as stated: the lone device resolves, and tracing from it to
    itself reports that no path was found. *)
Lemma trace_self_lone_device :
  "X" ∈ devices lone_device
  /\ trace_devices_connection (Some lone_device) "X" "X" 10
     = NoPathError "X" "X" 10 1 1
  /\ ~ zero_hop_path (trace_devices_connection (Some lone_device) "X" "X" 10).
Proof.
  split; [apply list_elem_of_here|].
  split; [vm_compute; reflexivity|].
  vm_compute. tauto.
Qed.

(** C2 at two devices joined by one straight cable, eth0 to eth0: neither
    end discovers the other, both frontiers come out empty, and the result
    is the failure object with one device explored on each side. *)
Theorem trace_straight_cable_not_found :
  interfaces_filter straight_cable "X" = [iface 1]
  /\ interfaces_filter straight_cable "Y" = [iface 2]
  /\ cables straight_cable 7 = mkCable [iface 1] [iface 2]
  /\ trace_devices_connection (Some straight_cable) "X" "Y" 10
     = NoPathError "X" "Y" 10 1 1
  /\ ~ one_hop_over 7 (trace_devices_connection (Some straight_cable) "X" "Y" 10).
Proof.
  split; [reflexivity|]. split; [reflexivity|]. split; [reflexivity|].
  split; [vm_compute; reflexivity|].
  vm_compute. tauto.
Qed.

(** C3 at the breakout panel: from S to T a path is found, with
    [total_hops = 1]; from T to S the meeting device T has been discovered
    but not visited on the target side, the lookup of its path fails, and
    the result is an error object with no [total_hops] at all. *)
Theorem trace_swap_breakout_panel :
  total_hops_of (trace_devices_connection (Some breakout_panel) "S" "T" 10)
  = Some 1
  /\ trace_devices_connection (Some breakout_panel) "T" "S" 10
     = TraceError (Failed (KeyError "T"))
  /\ total_hops_of (trace_devices_connection (Some breakout_panel) "T" "S" 10)
     = None.
Proof.
  split; [vm_compute; reflexivity|].
  split; vm_compute; reflexivity.
Qed.

(** C8, as the code has it: for two devices that resolve, a search that
    ends without a meeting point returns the failure object with both
    counts; with [max_iterations >= 1] both counts are at least 1, and with
    [max_iterations <= 0] both are 0.  No other error than a caught
    exception can be returned. *)
Theorem trace_exhausted_counts (nb : Inventory)
    (source_device target_device : string) (max_iterations : Z) :
  source_device ∈ devices nb ->
  target_device ∈ devices nb ->
  exhausted_counts max_iterations
    (trace_devices_connection (Some nb) source_device target_device
       max_iterations).
Proof.
  intros Hs Ht. unfold trace_devices_connection, devices_get.
  rewrite !bool_decide_eq_true_2 by done. simpl.
  destruct (search _ _ _ _ _ _ _ _ _ _ _) as [e|r] eqn:Hrun;
    [simpl; by exists e|].
  apply search_sound in Hrun;
    [|by apply bool_decide_eq_true_2|by apply bool_decide_eq_true_2
     |by left|by left].
  destruct r as [path m sh th total|s t mi a b|e]; simpl; [done| |done].
  destruct Hrun as (_ & _ & [(Hrounds & -> & ->)|(Hrounds & Ha & Hb)]).
  - right. rewrite !map_size_empty. split; [lia|done].
  - left. split; [lia|done].
Qed.

Lemma trace_exhausted_counts_witness :
  "X" ∈ devices straight_cable
  /\ "Y" ∈ devices straight_cable
  /\ exhausted_counts 10
       (trace_devices_connection (Some straight_cable) "X" "Y" 10).
Proof.
  split; [apply list_elem_of_here|].
  split; [apply list_elem_of_further, list_elem_of_here|].
  apply (trace_exhausted_counts straight_cable "X" "Y" 10).
  - apply list_elem_of_here.
  - apply list_elem_of_further, list_elem_of_here.
Defined.

(** C8 fails as stated: with no iteration allowed both devices resolve, no
    path is found, and both counts of the failure object are 0. *)
Lemma trace_no_iteration_counts :
  "X" ∈ devices straight_cable
  /\ "Y" ∈ devices straight_cable
  /\ trace_devices_connection (Some straight_cable) "X" "Y" 0
     = NoPathError "X" "Y" 0 0 0.
Proof.
  split; [apply list_elem_of_here|].
  split; [apply list_elem_of_further, list_elem_of_here|].
  vm_compute. reflexivity.
Qed.

(** ** A straight cable in any inventory

    Wherever two devices have one cabled interface each and one straight
    cable between the two, and records are compared by endpoint and id,
    neither end discovers the other. *)

Section StraightCable.
Context (nb : Inventory) (x y : string) (ix iy : TermRef) (c : Z).
Context (Hcmp : comparison nb = ByEndpointAndId).
Context (Hxy : x <> y).
Context (Hx : x ∈ devices nb) (Hy : y ∈ devices nb).
Context (Hdx : device (term nb ix) = Some x) (Hdy : device (term nb iy) = Some y).
Context (Hcx : cable (term nb ix) = Some c) (Hcy : cable (term nb iy) = Some c).
Context (Hcable : cables nb c = mkCable [ix] [iy]).
Context (Hpx : paired_ports nb ix = []) (Hpy : paired_ports nb iy = []).
Context (Hix : interfaces_filter nb x = [ix]).
Context (Hiy : interfaces_filter nb y = [iy]).

Lemma straight_ends_differ : ix <> iy.
Proof. clear -Hxy Hdx Hdy. intros ->. congruence. Qed.

Lemma straight_connected :
  _get_connected_terminations nb ix = [iy]
  /\ _get_connected_terminations nb iy = [ix].
Proof.
  pose proof straight_ends_differ as Hne.
  clear -Hne Hcx Hcy Hcable Hcmp.
  rewrite !connected_terminations_unfold by done. unfold others_on_cable.
  rewrite Hcx, Hcy, Hcable. simpl.
  rewrite !filter_cons, filter_nil.
  repeat case_decide; try congruence. done.
Qed.

Lemma straight_next :
  _get_next_terminations nb iy = [ix] /\ _get_next_terminations nb ix = [iy].
Proof.
  destruct straight_connected as [Hx' Hy'].
  clear -Hx' Hy' Hpx Hpy.
  rewrite !next_flat_map, Hx', Hy'. simpl. by rewrite Hpx, Hpy.
Qed.

(** Expanding one end: its interface leads to the other end and straight
    back, to the device that has just been marked visited. *)
Lemma straight_expand (o : string) (i j : TermRef) :
  o ∈ devices nb ->
  interfaces_filter nb o = [i] ->
  cable (term nb i) = Some c ->
  device (term nb i) = Some o ->
  _get_connected_terminations nb i = [j] ->
  _get_next_terminations nb j = [i] ->
  _expand_frontier nb [o] ∅ {[o := []]}
  = inr (mkFrontier {[o := []]} {[o := []]} []).
Proof.
  clear. intros Ho Hi Hc Hd Hconn Hnext.
  unfold _expand_frontier. simpl. unfold expand_device. simpl.
  replace (contains (∅ : Paths) o) with false
    by (symmetry; apply bool_decide_eq_false; rewrite lookup_empty;
        by intros [? ?]).
  unfold devices_get. rewrite (bool_decide_eq_true_2 _ Ho). simpl.
  unfold getitem. rewrite lookup_singleton_eq. simpl.
  rewrite Hi. simpl. unfold expand_interface. rewrite Hc, Hconn. simpl.
  rewrite Hnext. simpl. unfold discover. rewrite Hd. simpl.
  replace (contains (<[o:=[]]> (∅ : Paths)) o) with true
    by (symmetry; apply bool_decide_eq_true; rewrite lookup_insert_eq;
        by eexists).
  simpl. by rewrite insert_empty.
Qed.

(** Every trace between the two ends, with at least one iteration allowed,
    ends with both frontiers empty after the first round. *)
Lemma straight_cable_never_traced (max_iterations : Z) :
  1 <= max_iterations ->
  trace_devices_connection (Some nb) x y max_iterations
  = NoPathError x y max_iterations 1 1.
Proof.
  intros Hmi. destruct straight_connected as [Hconn_x Hconn_y].
  destruct straight_next as [Hnext_y Hnext_x].
  unfold trace_devices_connection, devices_get.
  rewrite (bool_decide_eq_true_2 _ Hx), (bool_decide_eq_true_2 _ Hy). simpl.
  destruct (Z.to_nat max_iterations) as [|rounds] eqn:Hrounds; [lia|].
  simpl.
  rewrite (straight_expand x ix iy Hx Hix Hcx Hdx Hconn_x Hnext_y). simpl.
  rewrite (straight_expand y iy ix Hy Hiy Hcy Hdy Hconn_y Hnext_x). simpl.
  by rewrite !map_size_singleton.
Qed.

End StraightCable.

Example straight_cable_never_traced_at :
  trace_devices_connection (Some straight_cable) "X" "Y" 3
  = NoPathError "X" "Y" 3 1 1.
Proof.
  apply (straight_cable_never_traced straight_cable "X" "Y" (iface 1) (iface 2) 7);
    try reflexivity; try lia.
  - discriminate.
  - apply list_elem_of_here.
  - apply list_elem_of_further, list_elem_of_here.
Qed.

(** ** The tree tracer on wiring with a cycle

    In the breakout panel the front port f0 and the rear port r0 point at
    each other, and the cables close a loop through S, T and M.  The tree
    from S.e2 is finite and names each termination once. *)
Example breakout_panel_tree_ids :
  result_ids (tree_of (trace_from_interface (Some breakout_panel) "S" "e2" 10))
  = ["S_e2"; "S_e3"; "T_f0"; "T_r0"; "M_e1"; "M_e2"].
Proof. vm_compute. reflexivity. Qed.

Example breakout_panel_tree_depth_2 :
  result_ids (tree_of (trace_from_interface (Some breakout_panel) "S" "e2" 2))
  = ["S_e2"; "S_e3"; "T_f0"; "T_r0"].
Proof. vm_compute. reflexivity. Qed.

(** * Further properties of the tracer

    ** Cable graph accessors *)

(** X1: Whatever is returned as connected to a termination is listed on
    the termination's cable.  The termination itself is returned exactly
    when the client library never finds two records equal, the A side of
    its cable is not empty and the termination is listed on the cable; when
    records are compared by endpoint and id it is never returned. *)
Theorem connected_self_listed (nb : Inventory) (t : TermRef) :
  (t ∈ _get_connected_terminations nb t
   <-> comparison nb = NeverEqual
       /\ exists c, cable (term nb t) = Some c
            /\ a_terminations (cables nb c) <> []
            /\ t ∈ a_terminations (cables nb c) ++ b_terminations (cables nb c))
  /\ (forall u, u ∈ _get_connected_terminations nb t ->
        exists c, cable (term nb t) = Some c
          /\ u ∈ a_terminations (cables nb c) ++ b_terminations (cables nb c)).
Proof.
  split.
  - rewrite connected_elem. split.
    + intros (c & Hc & Ha & Hin & Hne%record_ne_self). split; [done|].
      by exists c.
    + intros (Hcmp & c & Hc & Ha & Hin). exists c.
      by rewrite record_ne_self.
  - intros u (c & Hc & _ & Hin & _)%connected_elem. by exists c.
Qed.

(** X2: Being connected is symmetric between two terminations that name the
    same cable, when the first is listed on it. *)
Theorem connected_symmetric (nb : Inventory) (t u : TermRef) (c : Z) :
  cable (term nb t) = Some c ->
  cable (term nb u) = Some c ->
  t ∈ a_terminations (cables nb c) ++ b_terminations (cables nb c) ->
  u ∈ _get_connected_terminations nb t ->
  t ∈ _get_connected_terminations nb u.
Proof.
  intros Ht Hu Hlisted (c' & Hc' & Ha & _ & Hne)%connected_elem.
  rewrite Ht in Hc'. injection Hc' as <-.
  apply connected_elem. exists c. by rewrite record_ne_sym.
Qed.

Lemma connected_symmetric_witness :
  iface 2 ∈ _get_connected_terminations straight_cable (iface 1)
  /\ iface 1 ∈ _get_connected_terminations straight_cable (iface 2).
Proof.
  assert (H12 : iface 2 ∈ _get_connected_terminations straight_cable (iface 1))
    by (vm_compute; apply list_elem_of_here).
  split; [exact H12|].
  apply (connected_symmetric straight_cable (iface 1) (iface 2) 7);
    [reflexivity | reflexivity | vm_compute; apply list_elem_of_here | exact H12].
Defined.

(** ** Meeting of the two searches *)

(** X3: [_find_intersection] returns the first device of the list that is a
    key of the dictionary, and nothing exactly when no device of the list
    is a key. *)
Theorem find_intersection_first (l : list string) (m : Paths) :
  (forall d, _find_intersection l m = Some d ->
     exists before after, l = before ++ d :: after
       /\ is_Some (m !! d)
       /\ forall x, x ∈ before -> m !! x = None)
  /\ (_find_intersection l m = None <-> forall x, x ∈ l -> m !! x = None).
Proof.
  induction l as [|a l [IHsome IHnone]]; simpl.
  - split; [done|]. split; [|done]. intros _ x Hx. by apply not_elem_of_nil in Hx.
  - destruct (contains m a) eqn:Ha.
    + apply contains_true in Ha. split.
      * intros d [= <-]. exists [], l. split; [done|]. split; [done|].
        intros x Hx. by apply not_elem_of_nil in Hx.
      * split; [done|]. intros Hall.
        rewrite (Hall a) in Ha by apply list_elem_of_here. by destruct Ha.
    + apply contains_false in Ha. split.
      * intros d (before & after & -> & Hd & Hbefore)%IHsome.
        exists (a :: before), after. split; [done|]. split; [done|].
        intros x [->|Hx]%elem_of_cons; [done|by apply Hbefore].
      * rewrite IHnone. split.
        -- intros Hall x [->|Hx]%elem_of_cons; [done|by apply Hall].
        -- intros Hall x Hx. apply Hall. by apply list_elem_of_further.
Qed.

(** X4: [_build_complete_path] fails exactly when the meeting device is
    missing from one of the dictionaries, with a [KeyError] on it.
    Otherwise the path is the source path followed by the reversed target
    path without its first hop, and it has [total_hops] hops, except when
    the target path is empty: then it has one hop more than reported. *)
Theorem build_complete_path_length (m : string) (sv tv : Paths) :
  match _build_complete_path m sv tv with
  | inl e => e = KeyError m /\ (sv !! m = None \/ tv !! m = None)
  | inr (PathResult path meeting source_hops target_hops total_hops) =>
      meeting = m
      /\ sv !! m = Some (take source_hops path)
      /\ is_Some (tv !! m)
      /\ total_hops = Z.of_nat source_hops + Z.of_nat target_hops - 1
      /\ Z.of_nat (length path)
         = total_hops + (if decide (target_hops = 0%nat) then 1 else 0)
  | inr _ => False
  end.
Proof.
  unfold _build_complete_path, getitem.
  destruct (sv !! m) as [sp|] eqn:Hs; simpl; [|by split; [|left]].
  destruct (tv !! m) as [tp|] eqn:Ht; simpl; [|by split; [|right]].
  split; [done|]. split; [by rewrite take_app_length|]. split; [done|].
  split; [done|].
  rewrite length_app.
  assert (Htail : forall (l : list PathHop), length (tail l) = (length l - 1)%nat)
    by (by intros [|? ?]; simpl; lia).
  rewrite Htail, length_rev. case_decide; lia.
Qed.

(** ** Expanding a frontier *)

Lemma for_each_invariant_in {A S} (P : S -> Prop) (body : S -> A -> Exc S)
    (l : list A) (s s' : S) :
  (forall s x s', x ∈ l -> P s -> body s x = inr s' -> P s') ->
  P s -> for_each body l s = inr s' -> P s'.
Proof.
  revert s. induction l as [|x l IH]; intros s Hbody Hs Hrun; simpl in Hrun.
  - by injection Hrun as <-.
  - apply bind_inr in Hrun as (s1 & Hstep & Hrest).
    apply (IH s1); [|by apply (Hbody s x); [apply list_elem_of_here| |]|done].
    intros s2 y s3 Hy. apply Hbody. by apply list_elem_of_further.
Qed.

(** Where a loop raises, its body has raised at some element, in a state
    that a property kept by the body still holds of. *)
Lemma for_each_raises {A S} (P : S -> Prop) (Q : Exn -> Prop)
    (body : S -> A -> Exc S) (l : list A) (s : S) (e : Exn) :
  (forall s x s', x ∈ l -> P s -> body s x = inr s' -> P s') ->
  (forall s x e, x ∈ l -> P s -> body s x = inl e -> Q e) ->
  P s -> for_each body l s = inl e -> Q e.
Proof.
  revert s. induction l as [|x l IH]; intros s Hkeep Hraise Hs Hrun;
    simpl in Hrun; [done|].
  destruct (body s x) as [e'|s1] eqn:Hstep; simpl in Hrun.
  - injection Hrun as <-. by apply (Hraise s x); [apply list_elem_of_here| |].
  - apply (IH s1); [| |by apply (Hkeep s x); [apply list_elem_of_here| |]|done].
    + intros s2 y s3 Hy. apply Hkeep. by apply list_elem_of_further.
    + intros s2 y e2 Hy. apply Hraise. by apply list_elem_of_further.
Qed.

Lemma interfaces_filter_spec (nb : Inventory) (device_name : string) (i : TermRef) :
  i ∈ interfaces_filter nb device_name
  <-> i ∈ interfaces nb /\ device (term nb i) = Some device_name
      /\ is_Some (cable (term nb i)).
Proof. unfold interfaces_filter. rewrite list_elem_of_filter. tauto. Qed.

(** What one discovery changes. *)
Lemma discover_inr (nb : Inventory) device_name interface cable_id st next_term st' :
  discover nb device_name interface cable_id st next_term = inr st' ->
  st' = st
  \/ exists next_device origin_path interface_name,
       device (term nb next_term) = Some next_device
       /\ visited st !! next_device = None
       /\ path_to_origin st !! device_name = Some origin_path
       /\ name (term nb interface) = Some interface_name
       /\ st' = mkFrontier (visited st)
                  (<[next_device :=
                       origin_path
                       ++ [mkHop device_name interface_name cable_id next_device
                             (name (term nb next_term))]]> (path_to_origin st))
                  (new_devices st ++ [next_device]).
Proof.
  unfold discover.
  destruct (device (term nb next_term)) as [next_device|]; [|intros [= <-]; by left].
  destruct (contains (visited st) next_device) eqn:Hc; [intros [= <-]; by left|].
  apply contains_false in Hc.
  intros (origin_path & Hget%getitem_inr & Hrest)%bind_inr.
  destruct (name (term nb interface)) as [interface_name|]; [|done].
  injection Hrest as <-. right. by exists next_device, origin_path, interface_name.
Qed.

(** Where one discovery raises. *)
Lemma discover_inl (nb : Inventory) device_name interface cable_id st next_term e :
  discover nb device_name interface cable_id st next_term = inl e ->
  (e = KeyError device_name /\ path_to_origin st !! device_name = None)
  \/ (e = AttributeError "name" /\ name (term nb interface) = None).
Proof.
  unfold discover.
  destruct (device (term nb next_term)) as [next_device|]; [|done].
  destruct (contains (visited st) next_device); [done|].
  unfold getitem. destruct (path_to_origin st !! device_name) as [p|] eqn:Hp; simpl.
  - destruct (name (term nb interface)); [done|]. intros [= <-]. by right.
  - intros [= <-]. by left.
Qed.

Section ExpandFacts.
Context (nb : Inventory).

(** The scan of one device's interfaces, for a property of the state that
    every discovery keeps. *)
Lemma scan_invariant (P : Frontier -> Prop) device_name st st' :
  (forall s i c nt s', i ∈ interfaces_filter nb device_name ->
     cable (term nb i) = Some c -> P s ->
     discover nb device_name i c s nt = inr s' -> P s') ->
  P st ->
  for_each (expand_interface nb device_name) (interfaces_filter nb device_name) st
  = inr st' ->
  P st'.
Proof.
  intros Hdisc. apply for_each_invariant_in. intros s i s1 Hi Hs.
  unfold expand_interface. destruct (cable (term nb i)) as [c|] eqn:Hc;
    [|by intros [= <-]].
  apply for_each_invariant; [|done]. intros s2 t s3 Hs2.
  apply for_each_invariant; [|done]. intros s4 nt s5. by apply Hdisc.
Qed.

(** The whole expansion, for a property that marking a device visited and
    every discovery keep. *)
Lemma expand_invariant (P : Frontier -> Prop) devs v p st :
  (forall s d origin_path, d ∈ devs -> d ∈ devices nb ->
     visited s !! d = None -> path_to_origin s !! d = Some origin_path -> P s ->
     P (mkFrontier (<[d := origin_path]> (visited s)) (path_to_origin s)
          (new_devices s))) ->
  (forall s d i c nt s', i ∈ interfaces_filter nb d ->
     cable (term nb i) = Some c -> is_Some (visited s !! d) -> P s ->
     discover nb d i c s nt = inr s' -> P s') ->
  P (mkFrontier v p []) ->
  _expand_frontier nb devs v p = inr st ->
  P st.
Proof.
  intros Hvisit Hdisc. unfold _expand_frontier.
  apply for_each_invariant_in. intros s d s1 Hd Hs. unfold expand_device.
  destruct (contains (visited s) d) eqn:Hc; [by intros [= <-]|].
  apply contains_false in Hc.
  destruct (devices_get nb d) eqn:Hex; simpl; [|by intros [= <-]].
  apply bool_decide_eq_true in Hex.
  intros (origin_path & Hget%getitem_inr & Hscan)%bind_inr.
  apply (scan_invariant (fun s => is_Some (visited s !! d) /\ P s)
           d _ s1) in Hscan as [_ HP]; [done| |].
  - intros s2 i c nt s3 Hi Hcab [Hvis HP] Hrun. split.
    + apply discover_inr in Hrun as [->|(? & ? & ? & _ & _ & _ & _ & ->)]; done.
    + by apply (Hdisc s2 d i c nt).
  - split; [simpl; rewrite lookup_insert_eq; by eexists|]. by apply Hvisit.
Qed.

End ExpandFacts.

(** After a loop that did not raise, a property that the body establishes
    for its element, and that later rounds keep, holds of every element. *)
Lemma for_each_covers {A S} (R : A -> S -> Prop) (body : S -> A -> Exc S)
    (l : list A) (s s' : S) :
  (forall s x s', body s x = inr s' -> R x s') ->
  (forall s y s' x, R x s -> body s y = inr s' -> R x s') ->
  for_each body l s = inr s' ->
  forall x, x ∈ l -> R x s'.
Proof.
  intros Hmake Hkeep. revert s. induction l as [|a l IH]; intros s Hrun x Hx.
  - by apply not_elem_of_nil in Hx.
  - simpl in Hrun. apply bind_inr in Hrun as (s1 & Hstep & Hrest).
    apply elem_of_cons in Hx as [->|Hx]; [|by apply (IH s1)].
    assert (Ha : R a s1) by by apply (Hmake s).
    clear Hstep IH. revert s1 Ha Hrest.
    induction l as [|b l IH]; intros s1 Ha Hrest; simpl in Hrest.
    + by injection Hrest as <-.
    + apply bind_inr in Hrest as (s2 & Hstep & Hrest).
      apply (IH s2); [by apply (Hkeep s1 b)|done].
Qed.

Section Bookkeeping.
Context (nb : Inventory) (devs : list string) (v p : Paths).

Lemma expand_bookkeeping st :
  _expand_frontier nb devs v p = inr st -> bookkeeping nb devs v p st.
Proof.
  apply (expand_invariant nb (bookkeeping nb devs v p)).
  - intros s d origin_path Hd Hex Hfresh Hpath (Hold & Hnew & Hkeys & Hdisc).
    split; [|split; [|split]]; simpl; [| |done|done].
    + intros k path Hk. destruct (decide (d = k)) as [->|Hne].
      * rewrite (Hold k path Hk) in Hfresh. done.
      * rewrite lookup_insert_ne by done. by apply Hold.
    + intros k. destruct (decide (d = k)) as [->|Hne]; [by right|].
      rewrite lookup_insert_ne by done. apply Hnew.
  - intros s d i c nt s1 Hi Hc Hvis (Hold & Hnew & Hkeys & Hdisc) Hrun.
    apply discover_inr in Hrun
      as [->|(nd & op & iname & Hnd & Hfresh & Hop & Hname & ->)]; [done|].
    split; [|split; [|split]]; simpl; [done|done| |].
    + intros k Hk. destruct (decide (nd = k)) as [->|Hne].
      * rewrite lookup_insert_eq. by eexists.
      * rewrite lookup_insert_ne by done. by apply Hkeys.
    + intros k [Hk|Hk%list_elem_of_singleton]%elem_of_app; [|subst k].
      * destruct (Hdisc k Hk) as [Hv Hp]. split; [done|].
        destruct (decide (nd = k)) as [->|Hne].
        -- rewrite lookup_insert_eq. by eexists.
        -- by rewrite lookup_insert_ne.
      * split; [|rewrite lookup_insert_eq; by eexists].
        destruct (v !! nd) as [path|] eqn:Hv; [|done].
        by rewrite (Hold nd path Hv) in Hfresh.
  - split; [done|]. split; [by left|]. split; [done|].
    intros d Hd. by apply not_elem_of_nil in Hd.
Qed.

Lemma expand_visits st :
  _expand_frontier nb devs v p = inr st ->
  forall d, d ∈ devs -> d ∈ devices nb -> is_Some (visited st !! d).
Proof.
  unfold _expand_frontier. intros Hrun d Hd.
  revert Hrun d Hd.
  apply (for_each_covers
           (fun d s => d ∈ devices nb -> is_Some (visited s !! d))).
  - intros s d s1. unfold expand_device.
    destruct (contains (visited s) d) eqn:Hc.
    { intros [= <-] _. by apply contains_true. }
    destruct (devices_get nb d) eqn:Hex; simpl.
    2:{ intros _ Hd. apply bool_decide_eq_false in Hex. done. }
    intros (origin_path & _ & Hscan)%bind_inr _.
    revert Hscan. apply (scan_invariant nb (fun s => is_Some (visited s !! d))).
    + intros s2 i c nt s3 _ _ Hs2
        [->|(? & ? & ? & _ & _ & _ & _ & ->)]%discover_inr; done.
    + simpl. rewrite lookup_insert_eq. by eexists.
  - intros s y s1 d Hd Hrun Hex. specialize (Hd Hex).
    revert Hrun. unfold expand_device.
    destruct (contains (visited s) y); [by intros [= <-]|].
    destruct (negb (devices_get nb y)); [by intros [= <-]|].
    intros (origin_path & _ & Hscan)%bind_inr.
    revert Hscan. apply (scan_invariant nb (fun s => is_Some (visited s !! d))).
    + intros s2 i c nt s3 _ _ Hs2
        [->|(? & ? & ? & _ & _ & _ & _ & ->)]%discover_inr; done.
    + simpl. destruct (decide (y = d)) as [->|Hne].
      * rewrite lookup_insert_eq. by eexists.
      * by rewrite lookup_insert_ne.
Qed.

End Bookkeeping.

(** X5: An expansion never changes or drops what was visited before, and the
    devices it adds to the visited dictionary are exactly the devices of
    the frontier that resolve in the inventory. *)
Theorem expand_frontier_visited (nb : Inventory) (devs : list string)
    (v p : Paths) (st : Frontier) :
  _expand_frontier nb devs v p = inr st ->
  (forall k path, v !! k = Some path -> visited st !! k = Some path)
  /\ (forall k, is_Some (visited st !! k)
        <-> is_Some (v !! k) \/ (k ∈ devs /\ k ∈ devices nb)).
Proof.
  intros Hrun. destruct (expand_bookkeeping nb devs v p st Hrun)
    as (Hold & Hnew & _ & _).
  split; [done|]. intros k. split; [apply Hnew|].
  intros [[path Hk]|[Hd Hex]].
  - exists path. by apply Hold.
  - by apply (expand_visits nb devs v p st).
Qed.

Lemma expand_frontier_visited_witness :
  _expand_frontier straight_cable ["X"] ∅ {["X" := []]}
  = inr (mkFrontier {["X" := []]} {["X" := []]} [])
  /\ forall k,
       is_Some (visited (mkFrontier {["X" := []]} {["X" := []]} []) !! k)
       <-> is_Some ((∅ : Paths) !! k)
           \/ (k ∈ ["X"] /\ k ∈ devices straight_cable).
Proof.
  split; [vm_compute; reflexivity|].
  apply (expand_frontier_visited straight_cable ["X"] ∅ {["X" := []]}).
  vm_compute. reflexivity.
Defined.

(** X6: The devices an expansion reports as new were not visited before it,
    each of them has a recorded path afterwards, and no device loses its
    recorded path. *)
Theorem expand_frontier_new_devices (nb : Inventory) (devs : list string)
    (v p : Paths) (st : Frontier) :
  _expand_frontier nb devs v p = inr st ->
  (forall d, d ∈ new_devices st ->
     v !! d = None /\ is_Some (path_to_origin st !! d))
  /\ (forall k, is_Some (p !! k) -> is_Some (path_to_origin st !! k)).
Proof.
  intros Hrun. destruct (expand_bookkeeping nb devs v p st Hrun)
    as (_ & _ & Hkeys & Hdisc).
  done.
Qed.

Lemma expand_frontier_new_devices_witness :
  exists st,
    _expand_frontier fanout ["X"] ∅ {["X" := []]} = inr st
    /\ new_devices st = ["Z"; "Y"]
    /\ forall d, d ∈ new_devices st ->
         (∅ : Paths) !! d = None /\ is_Some (path_to_origin st !! d).
Proof.
  eexists. split; [vm_compute; reflexivity|]. split; [reflexivity|].
  apply (expand_frontier_new_devices fanout ["X"] ∅ {["X" := []]}).
  vm_compute. reflexivity.
Defined.

Section ExpandFailures.
Context (nb : Inventory).

Lemma scan_raises (P : Frontier -> Prop) (Q : Exn -> Prop) device_name st e :
  (forall s i c nt s', i ∈ interfaces_filter nb device_name ->
     cable (term nb i) = Some c -> P s ->
     discover nb device_name i c s nt = inr s' -> P s') ->
  (forall s i c nt e, i ∈ interfaces_filter nb device_name ->
     cable (term nb i) = Some c -> P s ->
     discover nb device_name i c s nt = inl e -> Q e) ->
  P st ->
  for_each (expand_interface nb device_name) (interfaces_filter nb device_name) st
  = inl e ->
  Q e.
Proof.
  intros Hkeep Hraise. apply (for_each_raises P Q).
  - intros s i s1 Hi Hs. unfold expand_interface.
    destruct (cable (term nb i)) as [c|] eqn:Hc; [|by intros [= <-]].
    apply for_each_invariant; [|done]. intros s2 t s3 Hs2.
    apply for_each_invariant; [|done]. intros s4 nt s5. by apply Hkeep.
  - intros s i e1 Hi Hs. unfold expand_interface.
    destruct (cable (term nb i)) as [c|] eqn:Hc; [|done].
    apply (for_each_raises P Q); [| |done].
    + intros s2 t s3 _ Hs2. apply for_each_invariant; [|done].
      intros s4 nt s5. by apply Hkeep.
    + intros s2 t e2 _ Hs2. apply (for_each_raises P Q); [| |done].
      * intros s4 nt s5 _. by apply Hkeep.
      * intros s4 nt e3 _. by apply Hraise.
Qed.

(** Recorded paths are only added or replaced by a discovery. *)
Lemma discover_keeps_keys device_name i c s nt s' k :
  discover nb device_name i c s nt = inr s' ->
  is_Some (path_to_origin s !! k) -> is_Some (path_to_origin s' !! k).
Proof.
  intros [->|(nd & ? & ? & _ & _ & _ & _ & ->)]%discover_inr Hk; [done|].
  simpl. destruct (decide (nd = k)) as [->|Hne].
  - rewrite lookup_insert_eq. by eexists.
  - by rewrite lookup_insert_ne.
Qed.

Lemma expand_device_keeps_keys s d s' k :
  expand_device nb s d = inr s' ->
  is_Some (path_to_origin s !! k) -> is_Some (path_to_origin s' !! k).
Proof.
  unfold expand_device.
  destruct (contains (visited s) d); [by intros [= <-]|].
  destruct (negb (devices_get nb d)); [by intros [= <-]|].
  intros (origin_path & _ & Hscan)%bind_inr Hk. revert Hscan.
  apply (scan_invariant nb (fun s => is_Some (path_to_origin s !! k))); [|done].
  intros s2 i c nt s3 _ _ Hs2 Hrun. by apply (discover_keeps_keys d i c s2 nt).
Qed.

Lemma expand_frontier_raises devs v p e :
  (forall d, d ∈ devs -> is_Some (p !! d)) ->
  _expand_frontier nb devs v p = inl e ->
  e = AttributeError "name"
  /\ exists i, i ∈ interfaces nb /\ is_Some (cable (term nb i))
       /\ name (term nb i) = None.
Proof.
  intros Hdom. unfold _expand_frontier.
  set (Q := fun e : Exn =>
              e = AttributeError "name"
              /\ exists i, i ∈ interfaces nb /\ is_Some (cable (term nb i))
                   /\ name (term nb i) = None).
  apply (for_each_raises
           (fun s => forall d, d ∈ devs -> is_Some (path_to_origin s !! d)) Q).
  - intros s d s1 _ Hs Hrun k Hk.
    by apply (expand_device_keeps_keys s d s1 k Hrun), Hs.
  - intros s d e1 Hd Hs. unfold expand_device.
    destruct (contains (visited s) d); [done|].
    destruct (negb (devices_get nb d)); [done|].
    destruct (Hs d Hd) as [origin_path Hpath].
    unfold getitem. rewrite Hpath. simpl.
    apply (scan_raises (fun s => is_Some (path_to_origin s !! d)) Q).
    + intros s2 i c nt s3 _ _ Hs2 Hrun.
      by apply (discover_keeps_keys d i c s2 nt).
    + intros s2 i c nt e2 Hi Hc [path Hs2]
        [[_ Hnone]|[-> Hname]]%discover_inl; [congruence|].
      split; [done|]. exists i. apply interfaces_filter_spec in Hi.
      destruct Hi as (Hi & _ & Hcab). done.
    + simpl. by eexists.
  - done.
Qed.

End ExpandFailures.

(** X7: Expanding a frontier whose devices all have a recorded path never
    raises a [KeyError]: every dictionary lookup of the expansion succeeds.
    And when the expansion raises the [AttributeError] of a missing name,
    a cabled interface of the inventory has no name. *)
Theorem expand_frontier_no_key_error (nb : Inventory) (devs : list string)
    (v p : Paths) (e : Exn) :
  (forall d, d ∈ devs -> is_Some (p !! d)) ->
  _expand_frontier nb devs v p = inl e ->
  (forall k, e <> KeyError k)
  /\ (e = AttributeError "name" ->
      exists i, i ∈ interfaces nb /\ is_Some (cable (term nb i))
        /\ name (term nb i) = None).
Proof.
  intros Hdom Hrun.
  destruct (expand_frontier_raises nb devs v p e Hdom Hrun) as [-> Hi].
  split; [done|]. by intros _.
Qed.

Lemma expand_frontier_no_key_error_witness :
  _expand_frontier nameless_fanout ["X"] ∅ {["X" := []]}
  = inl (AttributeError "name")
  /\ (forall k, AttributeError "name" <> KeyError k)
  /\ (AttributeError "name" = AttributeError "name" ->
      exists i, i ∈ interfaces nameless_fanout
        /\ is_Some (cable (term nameless_fanout i))
        /\ name (term nameless_fanout i) = None).
Proof.
  split; [vm_compute; reflexivity|].
  apply (expand_frontier_no_key_error nameless_fanout ["X"] ∅ {["X" := []]}
           (AttributeError "name")).
  - intros d ->%list_elem_of_singleton. rewrite lookup_singleton_eq. by eexists.
  - vm_compute. reflexivity.
Defined.

(** ** Recorded paths are chains of inventory hops *)

Lemma chain_app (a b c : string) (p q : list PathHop) :
  chain a p b -> chain b q c -> chain a (p ++ q) c.
Proof.
  revert a. induction p as [|h p IH]; intros a; simpl.
  - by intros ->.
  - intros [Hh Hp] Hq. split; [done|]. by apply IH.
Qed.

Lemma expand_paths_ok (nb : Inventory) (origin : string) (devs : list string)
    (v p : Paths) (st : Frontier) :
  paths_ok nb origin v -> paths_ok nb origin p ->
  _expand_frontier nb devs v p = inr st ->
  paths_ok nb origin (visited st) /\ paths_ok nb origin (path_to_origin st).
Proof.
  intros Hv Hp.
  apply (expand_invariant nb
           (fun s => paths_ok nb origin (visited s)
                     /\ paths_ok nb origin (path_to_origin s))); [| |done].
  - intros s d origin_path _ _ _ Hpath [Hvs Hps]. split; [|done]. simpl.
    intros k path. destruct (decide (d = k)) as [->|Hne].
    + rewrite lookup_insert_eq. intros [= <-]. by apply Hps.
    + rewrite lookup_insert_ne by done. apply Hvs.
  - intros s d i c nt s1 Hi Hc _ [Hvs Hps]
      [->|(nd & op & iname & _ & _ & Hop & Hname & ->)]%discover_inr; [done|].
    split; [done|]. simpl. intros k path.
    destruct (decide (nd = k)) as [->|Hne];
      [|rewrite lookup_insert_ne by done; apply Hps].
    rewrite lookup_insert_eq. intros [= <-].
    destruct (Hps d op Hop) as [Hchain Hhops]. split.
    + apply (chain_app _ d); [done|]. by simpl.
    + apply Forall_app. split; [done|]. apply Forall_singleton.
      apply interfaces_filter_spec in Hi as (Hi & Hdev & _).
      by exists i.
Qed.

(** ** The ways a search ends *)

Lemma found_some (x : option string) (m : string) :
  found x = Some m -> x = Some m /\ m <> "".
Proof.
  unfold found, truthy. destruct x as [d|]; [|done].
  case_bool_decide; [|done]. by intros [= <-].
Qed.

Lemma find_intersection_some (l : list string) (tv : Paths) (m : string) :
  _find_intersection l tv = Some m -> m ∈ l /\ is_Some (tv !! m).
Proof.
  induction l as [|a l IH]; simpl; [done|].
  destruct (contains tv a) eqn:Ha.
  - intros [= <-]. split; [apply list_elem_of_here|by apply contains_true].
  - intros [Hm Hv]%IH. split; [by apply list_elem_of_further|done].
Qed.

Section SearchCases.
Context (nb : Inventory).
Context (Is It : list string -> Paths -> Paths -> Prop).
Context (Hstep_s : forall f v p st, Is f v p ->
           _expand_frontier nb f v p = inr st ->
           Is (new_devices st) (visited st) (path_to_origin st)).
Context (Hstep_t : forall f v p st, It f v p ->
           _expand_frontier nb f v p = inr st ->
           It (new_devices st) (visited st) (path_to_origin st)).

(** A search ends in one of four ways: an expansion of the source side
    raises, an expansion of the target side raises, a meeting device that
    one side has visited is handed to [_build_complete_path], or the
    failure object is returned.  Each time the dictionaries at hand
    satisfy what the expansions keep. *)
Lemma search_cases source target max_iterations rounds sf tf sv tv sp tp :
  Is sf sv sp -> It tf tv tp ->
  (exists f v p e, Is f v p /\ _expand_frontier nb f v p = inl e
     /\ search nb source target max_iterations rounds sf tf sv tv sp tp = inl e)
  \/ (exists f v p e, It f v p /\ _expand_frontier nb f v p = inl e
        /\ search nb source target max_iterations rounds sf tf sv tv sp tp
           = inl e)
  \/ (exists m sf' sv' sp' tf' tv' tp',
        Is sf' sv' sp' /\ It tf' tv' tp'
        /\ m <> "" /\ (is_Some (sv' !! m) \/ is_Some (tv' !! m))
        /\ search nb source target max_iterations rounds sf tf sv tv sp tp
           = _build_complete_path m sv' tv')
  \/ (exists sf' sv' sp' tf' tv' tp',
        Is sf' sv' sp' /\ It tf' tv' tp'
        /\ search nb source target max_iterations rounds sf tf sv tv sp tp
           = inr (NoPathError source target max_iterations
                    (size sv') (size tv'))).
Proof using Hstep_s Hstep_t.
  revert sf tf sv tv sp tp.
  induction rounds as [|rounds IH]; intros sf tf sv tv sp tp Hs Ht; simpl.
  { do 3 right. by exists sf, sv, sp, tf, tv, tp. }
  destruct (_expand_frontier nb sf sv sp) as [e|src] eqn:Hexp_s; simpl.
  { left. by exists sf, sv, sp, e. }
  pose proof (Hstep_s sf sv sp src Hs Hexp_s) as Hs'.
  destruct (found (_find_intersection (new_devices src) tv)) as [m|] eqn:Hmeet.
  { apply found_some in Hmeet as [[_ Hm]%find_intersection_some Hne].
    right. right. left.
    exists m, (new_devices src), (visited src), (path_to_origin src), tf, tv, tp.
    split; [done|]. split; [done|]. split; [done|]. split; [by right|done]. }
  destruct (_expand_frontier nb tf tv tp) as [e|tgt] eqn:Hexp_t; simpl.
  { right. left. by exists tf, tv, tp, e. }
  pose proof (Hstep_t tf tv tp tgt Ht Hexp_t) as Ht'.
  destruct (found (_find_intersection (new_devices tgt) (visited src)))
    as [m|] eqn:Hmeet'.
  { apply found_some in Hmeet' as [[_ Hm]%find_intersection_some Hne].
    right. right. left.
    exists m, (new_devices src), (visited src), (path_to_origin src),
      (new_devices tgt), (visited tgt), (path_to_origin tgt).
    split; [done|]. split; [done|]. split; [done|]. split; [by left|done]. }
  assert (Hlast :
    (exists sf' sv' sp' tf' tv' tp',
       Is sf' sv' sp' /\ It tf' tv' tp'
       /\ ret (NoPathError source target max_iterations
                 (size (visited src)) (size (visited tgt)))
          = inr (NoPathError source target max_iterations
                   (size sv') (size tv')))).
  { by exists (new_devices src), (visited src), (path_to_origin src),
      (new_devices tgt), (visited tgt), (path_to_origin tgt). }
  destruct (new_devices src) as [|d ds] eqn:Hns;
    destruct (new_devices tgt) as [|d' ds'] eqn:Hnt;
    try (rewrite <- ?Hns, <- ?Hnt; apply IH; by rewrite ?Hns, ?Hnt).
  do 3 right. done.
Qed.

End SearchCases.

(** ** What a trace between two devices returns *)

Lemma paths_ok_start (nb : Inventory) (origin : string) :
  paths_ok nb origin ∅ /\ paths_ok nb origin {[origin := []]}.
Proof.
  split; intros k path.
  - by rewrite lookup_empty.
  - destruct (decide (origin = k)) as [->|Hne].
    + rewrite lookup_singleton_eq. by intros [= <-].
    + by rewrite lookup_singleton_ne.
Qed.

Lemma Forall_tail {A} (P : A -> Prop) (l : list A) :
  Forall P l -> Forall P (tail l).
Proof. destruct 1; [constructor|done]. Qed.

(** X9: The hops of a found path.  Its first [source_hops] hops lead from the
    source device to the meeting device, each leaving the device the
    previous one arrived at; the rest is the path recorded from the target
    device to the meeting device, reversed and without its last hop; and
    every hop leaves its device through a cabled interface that the
    inventory lists for that device, with that name, over that cable. *)
Theorem trace_path_hops (nb : Inventory) (source target : string)
    (max_iterations : Z) :
  match trace_devices_connection (Some nb) source target max_iterations with
  | PathResult path meeting source_hops target_hops _ =>
      chain source (take source_hops path) meeting
      /\ Forall (inventory_hop nb) path
      /\ exists target_path,
           chain target target_path meeting
           /\ length target_path = target_hops
           /\ drop source_hops path = tail (rev target_path)
  | _ => True
  end.
Proof.
  unfold trace_devices_connection.
  destruct (devices_get nb source); simpl; [|done].
  destruct (devices_get nb target); simpl; [|done].
  destruct (paths_ok_start nb source) as [Hs0 Hs1].
  destruct (paths_ok_start nb target) as [Ht0 Ht1].
  destruct (search_cases nb
              (fun _ v p => paths_ok nb source v /\ paths_ok nb source p)
              (fun _ v p => paths_ok nb target v /\ paths_ok nb target p)
              (fun f v p st H => expand_paths_ok nb source f v p st (proj1 H) (proj2 H))
              (fun f v p st H => expand_paths_ok nb target f v p st (proj1 H) (proj2 H))
              source target max_iterations (Z.to_nat max_iterations)
              [source] [target] ∅ ∅ {[source := []]} {[target := []]}
              (conj Hs0 Hs1) (conj Ht0 Ht1))
    as [(f & v & p & e & _ & _ & ->)
       |[(f & v & p & e & _ & _ & ->)
        |[(m & sf & sv & sp & tf & tv & tp & [Hsv _] & [Htv _] & _ & _ & ->)
         |(sf & sv & sp & tf & tv & tp & _ & _ & ->)]]]; [done|done| |done].
  unfold _build_complete_path, getitem.
  destruct (sv !! m) as [spath|] eqn:Hspath; simpl; [|done].
  destruct (tv !! m) as [tpath|] eqn:Htpath; simpl; [|done].
  destruct (Hsv m spath Hspath) as [Hschain Hshops].
  destruct (Htv m tpath Htpath) as [Htchain Hthops].
  split; [by rewrite take_app_length|]. split.
  - apply Forall_app. split; [done|]. by apply Forall_tail, Forall_rev.
  - exists tpath. split; [done|]. split; [done|]. by rewrite drop_app_length.
Qed.

Lemma size_list_to_set_le_length `{Countable A} (l : list A) :
  (size (list_to_set l : gset A) <= length l)%nat.
Proof.
  induction l as [|a l IH].
  - by rewrite list_to_set_nil, size_empty.
  - rewrite list_to_set_cons, size_union_alt, size_singleton. simpl.
    assert ((size ((list_to_set l : gset A) ∖ {[a]})
             <= size (list_to_set l : gset A))%nat)
      by (apply subseteq_size; set_solver).
    lia.
Qed.

Lemma size_keys_le (v : Paths) (l : list string) :
  (forall k, is_Some (v !! k) -> k ∈ l) -> (size v <= length l)%nat.
Proof.
  intros Hkeys. rewrite <- (size_dom (D := gset string)).
  etrans; [|apply size_list_to_set_le_length].
  apply subseteq_size. intros k Hk%elem_of_dom.
  apply elem_of_list_to_set. by apply Hkeys.
Qed.

(** What the two sides of a search keep about names: every device of a
    frontier has a recorded path, and every visited device resolves. *)
Lemma expand_names (nb : Inventory) (f : list string) (v p : Paths) (st : Frontier) :
  (forall d, d ∈ f -> is_Some (p !! d))
  /\ (forall k, is_Some (v !! k) -> k ∈ devices nb) ->
  _expand_frontier nb f v p = inr st ->
  (forall d, d ∈ new_devices st -> is_Some (path_to_origin st !! d))
  /\ (forall k, is_Some (visited st !! k) -> k ∈ devices nb).
Proof.
  intros [Hf Hv] Hrun.
  destruct (expand_bookkeeping nb f v p st Hrun) as (_ & Hnew & _ & Hdisc).
  split.
  - intros d Hd. by apply Hdisc.
  - intros k [Hk|[_ Hk]]%Hnew; [by apply Hv|done].
Qed.

Lemma names_start (nb : Inventory) (origin : string) :
  (forall d, d ∈ [origin] -> is_Some (({[origin := []]} : Paths) !! d))
  /\ (forall k, is_Some ((∅ : Paths) !! k) -> k ∈ devices nb).
Proof.
  split.
  - intros d ->%list_elem_of_singleton. rewrite lookup_singleton_eq. by eexists.
  - intros k [x Hx]. by rewrite lookup_empty in Hx.
Qed.

(** X10: A trace that fails with a [KeyError] has met: the key is a device
    name that is not empty and that resolves in the inventory, handed to
    [_build_complete_path] as the meeting device while one of the two
    sides had discovered it without visiting it.  And a trace that fails
    with the [AttributeError] of a missing name has come upon a cabled
    interface of the inventory that has no name. *)
Theorem trace_key_error_meeting (nb : Inventory) (source target : string)
    (max_iterations : Z) :
  match trace_devices_connection (Some nb) source target max_iterations with
  | TraceError (Failed (KeyError m)) => m <> "" /\ m ∈ devices nb
  | TraceError (Failed (AttributeError attr)) =>
      attr = "name" ->
      exists i, i ∈ interfaces nb /\ is_Some (cable (term nb i))
        /\ name (term nb i) = None
  | _ => True
  end.
Proof.
  unfold trace_devices_connection.
  destruct (devices_get nb source); simpl; [|done].
  destruct (devices_get nb target); simpl; [|done].
  destruct (search_cases nb
              (fun f v p => (forall d, d ∈ f -> is_Some (p !! d))
                            /\ (forall k, is_Some (v !! k) -> k ∈ devices nb))
              (fun f v p => (forall d, d ∈ f -> is_Some (p !! d))
                            /\ (forall k, is_Some (v !! k) -> k ∈ devices nb))
              (expand_names nb) (expand_names nb)
              source target max_iterations (Z.to_nat max_iterations)
              [source] [target] ∅ ∅ {[source := []]} {[target := []]}
              (names_start nb source) (names_start nb target))
    as [(f & v & p & e & [Hf _] & Hraise & ->)
       |[(f & v & p & e & [Hf _] & Hraise & ->)
        |[(m & sf & sv & sp & tf & tv & tp & [_ Hsv] & [_ Htv] & Hm & Hseen & ->)
         |(sf & sv & sp & tf & tv & tp & _ & _ & ->)]]]; [| | |done].
  - destruct (expand_frontier_raises nb f v p e Hf Hraise) as [-> Hi].
    by intros _.
  - destruct (expand_frontier_raises nb f v p e Hf Hraise) as [-> Hi].
    by intros _.
  - assert (Hex : m ∈ devices nb) by (destruct Hseen; auto).
    unfold _build_complete_path, getitem.
    destruct (sv !! m); simpl; [|done].
    by destruct (tv !! m).
Qed.

(** X11: The failure object never reports more explored devices, on either
    side, than the inventory has device names. *)
Theorem trace_explored_bound (nb : Inventory) (source target : string)
    (max_iterations : Z) :
  match trace_devices_connection (Some nb) source target max_iterations with
  | NoPathError _ _ _ explored_source explored_target =>
      (explored_source <= length (devices nb))%nat
      /\ (explored_target <= length (devices nb))%nat
  | _ => True
  end.
Proof.
  unfold trace_devices_connection.
  destruct (devices_get nb source); simpl; [|done].
  destruct (devices_get nb target); simpl; [|done].
  destruct (search_cases nb
              (fun f v p => (forall d, d ∈ f -> is_Some (p !! d))
                            /\ (forall k, is_Some (v !! k) -> k ∈ devices nb))
              (fun f v p => (forall d, d ∈ f -> is_Some (p !! d))
                            /\ (forall k, is_Some (v !! k) -> k ∈ devices nb))
              (expand_names nb) (expand_names nb)
              source target max_iterations (Z.to_nat max_iterations)
              [source] [target] ∅ ∅ {[source := []]} {[target := []]}
              (names_start nb source) (names_start nb target))
    as [(f & v & p & e & _ & _ & ->)
       |[(f & v & p & e & _ & _ & ->)
        |[(m & sf & sv & sp & tf & tv & tp & _ & _ & _ & _ & ->)
         |(sf & sv & sp & tf & tv & tp & [_ Hsv] & [_ Htv] & ->)]]];
    [done|done| |].
  - unfold _build_complete_path, getitem.
    destruct (sv !! m); simpl; [|done]. by destruct (tv !! m).
  - split; by apply size_keys_le.
Qed.


(** X13: The meeting point of a found path.  [total_hops] is the sum of the two
    hop counts minus one; a side reports no hop exactly when the meeting
    device is its own end; so [total_hops] is never below -1, and it is at
    least 0 when the two ends differ. *)
Theorem trace_meeting_point (nb : Inventory) (source target : string)
    (max_iterations : Z) :
  match trace_devices_connection (Some nb) source target max_iterations with
  | PathResult _ meeting source_hops target_hops total_hops =>
      total_hops = Z.of_nat source_hops + Z.of_nat target_hops - 1
      /\ (source_hops = 0%nat <-> meeting = source)
      /\ (target_hops = 0%nat <-> meeting = target)
      /\ -1 <= total_hops
      /\ (source <> target -> 0 <= total_hops)
  | _ => True
  end.
Proof.
  unfold trace_devices_connection.
  destruct (devices_get nb source) eqn:Hs; simpl; [|done].
  destruct (devices_get nb target) eqn:Ht; simpl; [|done].
  destruct (search _ _ _ _ _ _ _ _ _ _ _) as [e|r] eqn:Hrun; [done|].
  apply search_sound in Hrun; [|done|done|by left|by left].
  destruct r as [path m sh th total| |]; [|done|done].
  destruct Hrun as (-> & Hsh & Hth).
  split; [done|]. split; [done|]. split; [done|]. split; [lia|].
  intros Hne.
  assert (~ (sh = 0%nat /\ th = 0%nat)).
  { intros [Hs0 Ht0]. apply Hsh in Hs0. apply Hth in Ht0. congruence. }
  lia.
Qed.

(** ** The tree follows the cable graph *)

Lemma follows_unfold (nb : Inventory) (max_depth : Z) (t : TermRef) (depth : Z)
    (n : TreeNode) :
  follows nb max_depth t depth n
  <-> node_of nb t depth n
      /\ depth < max_depth
      /\ Forall (fun child =>
                   exists u, u ∈ _get_next_terminations nb t
                     /\ follows nb max_depth u (depth + 1) child)
           (children n).
Proof.
  destruct n as [d i ty c dp ch]. simpl.
  assert (Heach :
    (fix each (l : list TreeNode) : Prop :=
       match l with
       | [] => True
       | child :: rest =>
           (exists u, u ∈ _get_next_terminations nb t
              /\ follows nb max_depth u (depth + 1) child)
           /\ each rest
       end) ch
    <-> Forall (fun child =>
                  exists u, u ∈ _get_next_terminations nb t
                    /\ follows nb max_depth u (depth + 1) child) ch).
  { induction ch as [|x ch IH]; [by split; [constructor|]|].
    rewrite Forall_cons, <- IH. done. }
  rewrite Heach. done.
Qed.

Section FollowFacts.
Context (nb : Inventory) (max_depth : Z) (t : TermRef) (depth : Z).
Context (build : TermRef -> gset string -> option TreeNode * gset string).
Context (Hbuild : forall u seen n,
           fst (build u seen) = Some n -> follows nb max_depth u (depth + 1) n).

Lemma append_follows nodes u seen :
  u ∈ _get_next_terminations nb t ->
  child_nodes_ok nb max_depth t depth nodes ->
  child_nodes_ok nb max_depth t depth (append_node nodes (fst (build u seen))).
Proof using Hbuild.
  intros Hu Hnodes. destruct (fst (build u seen)) as [n|] eqn:Hn; simpl; [|done].
  apply Forall_app. split; [done|]. apply Forall_singleton.
  exists u. split; [done|]. by apply (Hbuild u seen).
Qed.

Lemma build_each_follows ts st :
  (forall u, u ∈ ts -> u ∈ _get_next_terminations nb t) ->
  child_nodes_ok nb max_depth t depth (fst st) ->
  child_nodes_ok nb max_depth t depth (fst (build_each build ts st)).
Proof using Hbuild.
  revert st. induction ts as [|u ts IH]; intros st Hts Hst; simpl; [done|].
  pose proof (append_follows (fst st) u (snd st)
                (Hts u (list_elem_of_here _ _)) Hst) as Hnext.
  destruct (build u (snd st)) as [node seen]. apply IH; [|done].
  intros x Hx. by apply Hts, list_elem_of_further.
Qed.

Lemma build_connected_follows st c :
  c ∈ _get_connected_terminations nb t ->
  child_nodes_ok nb max_depth t depth (fst st) ->
  child_nodes_ok nb max_depth t depth (fst (build_connected nb build st c)).
Proof using Hbuild.
  intros Hc Hst.
  assert (Hnext : forall u, u = c \/ u ∈ paired_ports nb c ->
                    u ∈ _get_next_terminations nb t).
  { intros u Hu. rewrite next_flat_map, list_elem_of_In, in_flat_map.
    exists c. rewrite <- list_elem_of_In. split; [done|].
    destruct Hu as [->|Hu]; [by left|right; by apply list_elem_of_In]. }
  unfold build_connected.
  pose proof (append_follows (fst st) c (snd st) (Hnext c (or_introl eq_refl)) Hst)
    as Hchild.
  destruct (build c (snd st)) as [child seen]. simpl in Hchild.
  unfold paired_ports in Hnext.
  destruct (rear_port (term nb c)) as [r|].
  - pose proof (append_follows _ r seen
                  (Hnext r (or_intror (list_elem_of_here _ _))) Hchild) as Hrear.
    by destruct (build r seen) as [rear seen'].
  - destruct (front_ports (term nb c)) as [|fp fps] eqn:Hfps; [done|].
    apply build_each_follows; [|done]. intros u Hu. apply Hnext. by right.
Qed.

Lemma fold_connected_follows ts st :
  (forall c, c ∈ ts -> c ∈ _get_connected_terminations nb t) ->
  child_nodes_ok nb max_depth t depth (fst st) ->
  child_nodes_ok nb max_depth t depth (fst (fold_left (build_connected nb build) ts st)).
Proof using Hbuild.
  revert st. induction ts as [|c ts IH]; intros st Hts Hst; simpl; [done|].
  apply IH; [intros x Hx; by apply Hts, list_elem_of_further|].
  apply build_connected_follows; [apply Hts, list_elem_of_here|done].
Qed.

End FollowFacts.

Lemma build_tree_follows (nb : Inventory) (left : nat) (current_depth : Z)
    (t : TermRef) (seen : gset string) (n : TreeNode) :
  fst (build_tree nb left t seen current_depth) = Some n ->
  follows nb (current_depth + Z.of_nat left) t current_depth n.
Proof.
  revert current_depth t seen n.
  induction left as [|left IH]; intros depth t seen n; simpl; [done|].
  case_bool_decide as Hin; [done|].
  set (seen1 := {[term_id nb t]} ∪ seen).
  assert (Hloop : child_nodes_ok nb (depth + Z.of_nat (S left)) t depth
    (fst match cable (term nb t) with
         | Some _ =>
             fold_left
               (build_connected nb (fun u s => build_tree nb left u s (depth + 1)))
               (_get_connected_terminations nb t) ([], seen1)
         | None => ([], seen1)
         end)).
  { destruct (cable (term nb t)); [|constructor].
    apply fold_connected_follows; [|done|constructor].
    intros u s x Hx. apply IH in Hx.
    by replace (depth + Z.of_nat (S left)) with (depth + 1 + Z.of_nat left)
      by lia. }
  destruct (match cable (term nb t) with Some _ => _ | None => _ end)
    as [nodes seen2].
  simpl in Hloop. simpl. intros [= <-]. apply follows_unfold. simpl.
  split; [done|]. split; [lia|done].
Qed.

(** A tree induction that reaches the children through the list. *)
Lemma TreeNode_nested_ind (P : TreeNode -> Prop) :
  (forall n, Forall P (children n) -> P n) -> forall n, P n.
Proof.
  intros Hnode. fix IH 1. intros [d i ty c dp ch]. apply Hnode. simpl.
  induction ch as [|x ch IHch]; constructor; [apply IH|apply IHch].
Qed.

Lemma follows_nodes (nb : Inventory) (max_depth : Z) (n : TreeNode) :
  forall t depth, follows nb max_depth t depth n ->
  forall x, x ∈ tree_nodes n ->
    exists u d, node_of nb u d x /\ depth <= d < max_depth
      /\ (node_cable_id x = None -> children x = [])
      /\ Forall (fun child => node_depth child = Some (d + 1)) (children x).
Proof.
  induction n as [n IH] using TreeNode_nested_ind.
  intros t depth (Hnode & Hdepth & Hch)%follows_unfold x Hx.
  destruct n as [dv i ty c dp ch]. simpl in *.
  apply elem_of_cons in Hx as [->|Hx].
  - exists t, depth. split; [done|]. split; [lia|]. simpl. split.
    + intros Hc. destruct Hnode as (_ & _ & _ & Hcable & _). simpl in Hcable.
      assert (Hnext : _get_next_terminations nb t = []).
      { unfold _get_next_terminations. by rewrite <- Hcable, Hc. }
      rewrite Hnext in Hch. destruct ch as [|child ch]; [done|].
      apply Forall_cons in Hch as [(u & Hu & _) _]. by apply not_elem_of_nil in Hu.
    + eapply Forall_impl; [exact Hch|]. simpl.
      intros child (u & _ & (Hn & _)%follows_unfold). by destruct Hn as (_ & _ & _ & _ & ?).
  - apply list_elem_of_In, in_flat_map in Hx as (child & Hchild & Hx).
    rewrite <- list_elem_of_In in Hchild, Hx.
    rewrite Forall_forall in IH, Hch.
    destruct (Hch child Hchild) as (u & _ & Hfollows).
    destruct (IH child Hchild u (depth + 1) Hfollows x Hx)
      as (u' & d & Hn & Hd & Hrest).
    exists u', d. split; [done|]. split; [lia|done].
Qed.

(** X14: The tree that [_build_tree_node] returns stands for the termination it
    was called with at the depth it was called with, below [max_depth],
    and every child in it stands, one level deeper, for one of the next
    terminations of what its parent stands for: the tree has no edge that
    the cable graph does not have. *)
Theorem build_tree_node_follows (nb : Inventory) (termination : TermRef)
    (visited_terminations : gset string) (current_depth max_depth : Z) :
  match fst (_build_tree_node nb termination visited_terminations
               current_depth max_depth) with
  | Some n => follows nb max_depth termination current_depth n
  | None => True
  end.
Proof.
  unfold _build_tree_node.
  destruct (fst (build_tree nb (Z.to_nat (max_depth - current_depth)) termination
                   visited_terminations current_depth)) as [n|] eqn:Hn; [|done].
  destruct (Z.to_nat (max_depth - current_depth)) as [|left] eqn:Hleft; [done|].
  apply build_tree_follows in Hn.
  by replace (current_depth + Z.of_nat (S left)) with max_depth in Hn by lia.
Qed.

(** X15: Every node of a returned tree carries a depth from [current_depth] up
    to, and not including, [max_depth]; its children are one level deeper;
    and a node without a cable has no children. *)
Theorem build_tree_node_depths (nb : Inventory) (termination : TermRef)
    (visited_terminations : gset string) (current_depth max_depth : Z) :
  match fst (_build_tree_node nb termination visited_terminations
               current_depth max_depth) with
  | Some n =>
      Forall (fun x =>
                exists d, node_depth x = Some d
                  /\ current_depth <= d < max_depth
                  /\ (node_cable_id x = None -> children x = [])
                  /\ Forall (fun child => node_depth child = Some (d + 1))
                       (children x))
        (tree_nodes n)
  | None => True
  end.
Proof.
  unfold _build_tree_node.
  destruct (fst (build_tree nb (Z.to_nat (max_depth - current_depth)) termination
                   visited_terminations current_depth)) as [n|] eqn:Hn; [|done].
  destruct (Z.to_nat (max_depth - current_depth)) as [|left] eqn:Hleft; [done|].
  apply build_tree_follows in Hn.
  replace (current_depth + Z.of_nat (S left)) with max_depth in Hn by lia.
  apply Forall_forall. intros x Hx.
  destruct (follows_nodes nb max_depth n termination current_depth Hn x Hx)
    as (u & d & Hnode & Hd & Hleaf & Hch).
  exists d. by destruct Hnode as (_ & _ & _ & _ & ?).
Qed.

(** ** The metadata of a tree *)

Lemma count_nodes_length (n : TreeNode) : count_nodes n = length (tree_nodes n).
Proof.
  induction n as [n IH] using TreeNode_nested_ind.
  destruct n as [d i ty c dp ch]. simpl in *.
  assert (Hfold : forall a,
    fold_left (fun count child => (count + count_nodes child)%nat) ch a
    = (a + length (flat_map tree_nodes ch))%nat).
  { induction IH as [|x ch Hx _ IHch]; intros a; simpl; [lia|].
    rewrite IHch, Hx, length_app. lia. }
  by rewrite Hfold.
Qed.

Lemma count_cables_set (n : TreeNode) :
  count_cables n = list_to_set (counted_cables (tree_nodes n)).
Proof.
  induction n as [n IH] using TreeNode_nested_ind.
  destruct n as [d i ty c dp ch]. simpl in *.
  assert (Hfold : forall s : gset Z,
    fold_left (fun cables child => cables ∪ count_cables child) ch s
    = s ∪ list_to_set (counted_cables (flat_map tree_nodes ch))).
  { induction IH as [|x ch Hx _ IHch]; intros s; simpl.
    - unfold counted_cables. simpl. set_solver.
    - rewrite IHch, Hx. unfold counted_cables.
      rewrite omap_app, list_to_set_app_L. set_solver. }
  rewrite Hfold. unfold counted_cables. simpl.
  destruct c as [c|]; [case_bool_decide|]; simpl; set_solver.
Qed.

Lemma counted_cables_length (nodes : list TreeNode) :
  (length (counted_cables nodes) <= length nodes)%nat.
Proof.
  unfold counted_cables. induction nodes as [|n nodes IH]; [done|].
  cbn. destruct (node_cable_id n) as [c|]; [case_bool_decide|];
    cbn in *; lia.
Qed.

(** X16: The metadata returned with a tree echoes the request; [total_nodes] is
    the number of nodes of the tree, which is also the number of distinct
    termination identities in it; [total_cables] is the number of distinct
    cable ids, other than 0, that the nodes carry, and never exceeds
    [total_nodes]. *)
Theorem trace_from_interface_metadata (nb : Inventory)
    (device_name interface_name : string) (max_depth : Z) :
  match trace_from_interface (Some nb) device_name interface_name max_depth with
  | TreeFound tree metadata =>
      start_device metadata = device_name
      /\ start_interface metadata = interface_name
      /\ meta_max_depth metadata = max_depth
      /\ total_nodes metadata = length (tree_nodes tree)
      /\ total_nodes metadata = size (list_to_set (node_ids tree) : gset string)
      /\ total_cables metadata
         = size (list_to_set (counted_cables (tree_nodes tree)) : gset Z)
      /\ (total_cables metadata <= total_nodes metadata)%nat
  | _ => True
  end.
Proof.
  unfold trace_from_interface.
  destruct (interfaces_get nb device_name interface_name) as [i|]; [|done].
  destruct (cable (term nb i)) as [c|]; [|done].
  unfold _build_tree_node.
  pose proof (build_tree_ok nb (Z.to_nat (max_depth - 0)) 0 i ∅) as (Hnd & _ & _).
  destruct (fst (build_tree nb (Z.to_nat (max_depth - 0)) i ∅ 0)) as [tree|];
    [|done].
  simpl in Hnd. simpl.
  split; [done|]. split; [done|]. split; [done|].
  rewrite count_nodes_length, count_cables_set.
  split; [done|]. split; [|split; [done|]].
  - rewrite size_list_to_set by done. unfold node_ids. by rewrite length_map.
  - etrans; [apply size_list_to_set_le_length|apply counted_cables_length].
Qed.

Lemma interfaces_get_some (nb : Inventory) (device_name interface_name : string)
    (i : TermRef) :
  interfaces_get nb device_name interface_name = Some i ->
  i ∈ interfaces nb
  /\ device (term nb i) = Some device_name
  /\ name (term nb i) = Some interface_name.
Proof.
  unfold interfaces_get. intros [Hin Hi%bool_decide_eq_true]%find_some.
  by rewrite list_elem_of_In.
Qed.

(** X17: Tracing from a cabled interface with [max_depth >= 1] succeeds, and
    the root of the tree is the interface asked for, at depth 0, with its
    cable. *)
Theorem trace_from_interface_found (nb : Inventory)
    (device_name interface_name : string) (max_depth : Z) (interface : TermRef)
    (c : Z) :
  interfaces_get nb device_name interface_name = Some interface ->
  cable (term nb interface) = Some c ->
  1 <= max_depth ->
  exists tree metadata,
    trace_from_interface (Some nb) device_name interface_name max_depth
    = TreeFound tree metadata
    /\ node_device tree = Some device_name
    /\ node_interface tree = Some interface_name
    /\ node_type tree = "interface"
    /\ node_cable_id tree = Some c
    /\ node_depth tree = Some 0.
Proof.
  intros Hget Hcable Hdepth.
  destruct (interfaces_get_some nb device_name interface_name interface Hget)
    as (_ & Hdev & Hname).
  unfold trace_from_interface. rewrite Hget, Hcable.
  rewrite _build_tree_node_unfold.
  rewrite bool_decide_eq_false_2 by lia.
  rewrite bool_decide_eq_false_2 by set_solver.
  rewrite Hcable, Hdev, Hname. cbv beta iota zeta.
  destruct (fold_left _ _ _) as [nodes seen]. cbv beta iota zeta. cbn [fst].
  eexists _, _. split; [reflexivity|]. done.
Qed.

Lemma trace_from_interface_found_witness :
  interfaces_get straight_cable "X" "eth0" = Some (iface 1)
  /\ cable (term straight_cable (iface 1)) = Some 7
  /\ exists tree metadata,
       trace_from_interface (Some straight_cable) "X" "eth0" 10
       = TreeFound tree metadata
       /\ node_device tree = Some "X"
       /\ node_interface tree = Some "eth0"
       /\ node_type tree = "interface"
       /\ node_cable_id tree = Some 7
       /\ node_depth tree = Some 0.
Proof.
  split; [reflexivity|]. split; [reflexivity|].
  apply (trace_from_interface_found straight_cable "X" "eth0" 10 (iface 1) 7);
    [reflexivity | reflexivity | lia].
Defined.

(** ** Device listing, further *)

(** X18: With a limit from 1 to 1000 the result is the first [limit] devices
    that the filters match, in the order of the API; [total_count] is the
    smaller of the limit and the number of matching devices; and
    [truncated] is set exactly when at least [limit] devices match, so also
    when exactly [limit] do and nothing was cut. *)
Theorem get_devices_limited (api : DeviceApi)
    (site device_role device_type : option string) (limit : Z) :
  1 <= limit <= 1000 ->
  get_devices (Some api) site device_role device_type (Some limit)
  = let matching :=
      devices_filter api
        (add_filter "device_type" device_type
           (add_filter "role" device_role (add_filter "site" site ∅))) in
    DevicesFound (map device_info (take (Z.to_nat limit) matching))
      (mkDevicesMetadata (Nat.min (Z.to_nat limit) (length matching))
         (site, device_role, device_type) (Some limit)
         (bool_decide (limit <= Z.of_nat (length matching)))).
Proof.
  intros Hlimit. unfold get_devices, truthy_int. cbn [default].
  rewrite (bool_decide_eq_true_2 (limit <> 0)) by lia.
  rewrite (bool_decide_eq_false_2 (limit < 1 \/ limit > 1000)) by lia.
  cbn [andb]. unfold slice_to. rewrite (bool_decide_eq_true_2 (0 <= limit)) by lia.
  cbv zeta. rewrite length_map, length_take.
  unfold id. f_equal. f_equal. apply bool_decide_ext. lia.
Qed.

Lemma get_devices_limited_witness :
  1 <= 2 <= 1000
  /\ get_devices (Some three_devices) None None None (Some 2)
     = DevicesFound
         (map device_info [plain_device 1 "a"; plain_device 2 "b"])
         (mkDevicesMetadata 2 (None, None, None) (Some 2) true).
Proof.
  split; [lia|].
  apply (get_devices_limited three_devices None None None 2). lia.
Defined.

(** X19: The filters sent to the API hold a key for each argument that is a
    non-empty string, with that string, and no other key; and the devices
    returned are a prefix of the API's answer to them, in its order. *)
Theorem get_devices_filters (api : DeviceApi)
    (site device_role device_type : option string) (limit : option Z) :
  exists filters : gmap string string,
    filters !! "site" = (if truthy_str site then site else None)
    /\ filters !! "role" = (if truthy_str device_role then device_role else None)
    /\ filters !! "device_type"
       = (if truthy_str device_type then device_type else None)
    /\ (forall k, k <> "site" -> k <> "role" -> k <> "device_type" ->
          filters !! k = None)
    /\ match get_devices (Some api) site device_role device_type limit with
       | DevicesFound devs _ =>
           exists n, devs = map device_info (take n (devices_filter api filters))
       | DevicesError _ => True
       end.
Proof.
  exists (add_filter "device_type" device_type
            (add_filter "role" device_role (add_filter "site" site ∅))).
  assert (Hlookup : forall key value (m : gmap string string) k,
    add_filter key value m !! k
    = if decide (key = k)
      then (if truthy_str value then value else m !! k)
      else m !! k).
  { intros key value m k. unfold add_filter, truthy_str.
    destruct value as [v|]; [|by case_decide].
    destruct (truthy v); [|by case_decide].
    case_decide as Hk; [subst; by rewrite lookup_insert_eq|].
    by rewrite lookup_insert_ne. }
  split; [|split; [|split; [|split]]].
  - rewrite !Hlookup. simpl. by destruct (truthy_str site).
  - rewrite !Hlookup. simpl. by destruct (truthy_str device_role).
  - rewrite !Hlookup. simpl. by destruct (truthy_str device_type).
  - intros k Hs Hr Ht. rewrite !Hlookup.
    repeat case_decide; try congruence. apply lookup_empty.
  - unfold get_devices.
    destruct (truthy_int limit && _); [done|].
    destruct (truthy_int limit).
    + unfold slice_to. case_bool_decide; eexists; reflexivity.
    + eexists (length _). by rewrite firstn_all.
Qed.

(** X20: The limit is refused exactly when it is a number below 0 or above
    1000: no limit at all, 0, and 1 to 1000 are accepted. *)
Theorem get_devices_refused_iff (api : DeviceApi)
    (site device_role device_type : option string) (limit : option Z) :
  get_devices (Some api) site device_role device_type limit
  = DevicesError "Limit must be between 1 and 1000"
  <-> exists n, limit = Some n /\ (n < 0 \/ 1000 < n).
Proof.
  split.
  - unfold get_devices, truthy_int. destruct limit as [n|]; cbn [default].
    + case_bool_decide as Hnz; cbn [andb]; [|done].
      case_bool_decide as Hout; [|done]. intros _. exists n. unfold id in *.
      split; [done|lia].
    + done.
  - intros (n & -> & Hn). apply get_devices_limit_refused; lia.
Qed.

(** X21: The custom fields of a listed device are its custom fields that are
    not null, and the key is left out when there is none. *)
Theorem device_info_custom_fields (d : Device) :
  match info_custom_fields (device_info d) with
  | Some fields =>
      fields <> []
      /\ forall k v, (k, v) ∈ fields <-> (k, Some v) ∈ dev_custom_fields d
  | None => forall k v, (k, Some v) ∉ dev_custom_fields d
  end.
Proof.
  unfold device_info. simpl.
  set (keep := fun kv : string * option string =>
                 match snd kv with
                 | Some v => Some (fst kv, v)
                 | None => None
                 end).
  assert (Hin : forall k v,
    (k, v) ∈ omap keep (dev_custom_fields d) <-> (k, Some v) ∈ dev_custom_fields d).
  { intros k v. rewrite list_elem_of_omap. split.
    - intros ([k' [v'|]] & Hin & Hkeep); simpl in Hkeep; [|done].
      by injection Hkeep as -> ->.
    - intros Hin. by exists (k, Some v). }
  destruct (omap keep (dev_custom_fields d)) as [|f fs] eqn:Hfields.
  - intros k v Hkv. apply Hin in Hkv. by apply not_elem_of_nil in Hkv.
  - split; [done|]. done.
Qed.

(** ** Devices without cabled interfaces *)

(** X8: Expanding a frontier of devices that have no cabled interface
    discovers nothing: no device is reported as new and no recorded path
    is added or changed.  Such devices do not stall the other side of the
    search; they are only marked visited. *)
Theorem expand_frontier_uncabled (nb : Inventory) (devs : list string)
    (v p : Paths) (st : Frontier) :
  (forall d, d ∈ devs -> interfaces_filter nb d = []) ->
  _expand_frontier nb devs v p = inr st ->
  new_devices st = [] /\ path_to_origin st = p.
Proof.
  intros Hnone. unfold _expand_frontier.
  apply (for_each_invariant_in
           (fun s => new_devices s = [] /\ path_to_origin s = p)); [|done].
  intros s d s1 Hd [Hnew Hpaths]. unfold expand_device.
  destruct (contains (visited s) d); [by intros [= <-]|].
  destruct (negb (devices_get nb d)); [by intros [= <-]|].
  intros (origin_path & _ & Hscan)%bind_inr.
  rewrite (Hnone d Hd) in Hscan. simpl in Hscan. by injection Hscan as <-.
Qed.

Lemma expand_frontier_uncabled_witness :
  (forall d, d ∈ ["X"] -> interfaces_filter lone_device d = [])
  /\ _expand_frontier lone_device ["X"] ∅ {["X" := []]}
     = inr (mkFrontier {["X" := []]} {["X" := []]} [])
  /\ new_devices (mkFrontier {["X" := []]} {["X" := []]} []) = []
  /\ path_to_origin (mkFrontier {["X" := []]} {["X" := []]} [])
     = {["X" := []]}.
Proof.
  assert (Hnone : forall d, d ∈ ["X"] -> interfaces_filter lone_device d = [])
    by (intros d ->%list_elem_of_singleton; reflexivity).
  split; [exact Hnone|]. split; [vm_compute; reflexivity|].
  apply (expand_frontier_uncabled lone_device ["X"] ∅ {["X" := []]});
    [exact Hnone|vm_compute; reflexivity].
Defined.

(** ** Failures of a trace, at two inventories *)

Example trace_fanout_key_error :
  trace_devices_connection (Some fanout) "X" "Y" 10
  = TraceError (Failed (KeyError "X")).
Proof. vm_compute. reflexivity. Qed.

Example trace_nameless_attribute_error :
  trace_devices_connection (Some nameless_fanout) "X" "Y" 10
  = TraceError (Failed (AttributeError "name")).
Proof. vm_compute. reflexivity. Qed.

(** ** The same inventories under the other comparison of records

    When the client library never finds two records equal, a termination
    is among its own connected terminations. *)

Example connected_returns_self :
  _get_connected_terminations (with_comparison NeverEqual straight_cable) (iface 1)
  = [iface 1; iface 2].
Proof. vm_compute. reflexivity. Qed.

Example connected_one_sided_never_equal :
  _get_connected_terminations (with_comparison NeverEqual one_sided_cable) (iface 1)
  = [].
Proof. vm_compute. reflexivity. Qed.

(** Over the straight cable each end then discovers the other, and the
    trace fails where the two searches meet. *)
Example trace_straight_cable_never_equal :
  trace_devices_connection (Some (with_comparison NeverEqual straight_cable))
    "X" "Y" 10
  = TraceError (Failed (KeyError "X")).
Proof. vm_compute. reflexivity. Qed.

(** At the breakout panel the two directions differ as before. *)
Example trace_swap_breakout_panel_never_equal :
  total_hops_of
    (trace_devices_connection (Some (with_comparison NeverEqual breakout_panel))
       "S" "T" 10)
  = Some 1
  /\ trace_devices_connection (Some (with_comparison NeverEqual breakout_panel))
       "T" "S" 10
     = TraceError (Failed (KeyError "T")).
Proof. split; vm_compute; reflexivity. Qed.
